(** * bezel-project-patcher: name normalisation, matching and patching

    A shallow embedding of the Go packages [patching] (rom.go, patcher.go),
    of the in-memory file manager of the test package and of the flag
    handling of [main], together with the properties stated about them.

    Go strings are byte sequences; they are modelled as [list ascii].  The
    library functions of [strings], [path/filepath], [sort] and [fmt] the
    program calls are modelled on bytes, following the Go implementation;
    case mapping and white space are those of the ASCII range (a byte
    outside it is left alone by [ToLower] and is not white space). *)

From Stdlib Require Import ZArith Ascii String.
From stdpp Require Import base list strings gmap.

Local Open Scope Z_scope.
Local Open Scope list_scope.

(** A Go string.  String literals are read through the coercion below. *)
Abbreviation gostring := (list ascii).

Coercion list_ascii_of_string : string >-> list.

(** ** Package [strings] *)
Module strings.

Definition lowerByte (c : ascii) : ascii :=
  let n := N_of_ascii c in
  if ((65 <=? n) && (n <=? 90))%N then ascii_of_N (n + 32) else c.

(** [strings.ToLower] *)
Definition ToLower (s : gostring) : gostring := map lowerByte s.

Definition isSpace (c : ascii) : bool :=
  let n := N_of_ascii c in
  ((9 <=? n) && (n <=? 13) || (n =? 32))%N.

Fixpoint TrimLeftSpace (s : gostring) : gostring :=
  match s with
  | c :: s' => if isSpace c then TrimLeftSpace s' else s
  | [] => []
  end.

(** [strings.TrimSpace]: leading and trailing white space removed. *)
Definition TrimSpace (s : gostring) : gostring :=
  rev (TrimLeftSpace (rev (TrimLeftSpace s))).

(** [strings.HasPrefix] *)
Fixpoint HasPrefix (s prefix : gostring) : bool :=
  match prefix, s with
  | [], _ => true
  | p :: prefix', c :: s' => Ascii.eqb c p && HasPrefix s' prefix'
  | _ :: _, [] => false
  end.

(** Position of the first occurrence of [substr] in [s], if any. *)
Fixpoint indexOf (s substr : gostring) : option nat :=
  if HasPrefix s substr then Some 0%nat
  else match s with
       | [] => None
       | _ :: s' => S <$> indexOf s' substr
       end.

(** [strings.Index]: the first index of [substr] in [s], or -1. *)
Definition Index (s substr : gostring) : Z :=
  match indexOf s substr with
  | Some i => Z.of_nat i
  | None => -1
  end.

(** [strings.Contains] *)
Definition Contains (s substr : gostring) : bool := 0 <=? Index s substr.

(** [strings.HasSuffix] and [strings.TrimSuffix] *)
Definition HasSuffix (s suffix : gostring) : bool :=
  HasPrefix (rev s) (rev suffix).

Definition TrimSuffix (s suffix : gostring) : gostring :=
  if HasSuffix s suffix then take (length s - length suffix) s else s.

(** [strings.Split] for a non-empty separator, as Go's [genSplit] does it:
    cut at the first occurrence of [sep], continue after it.  Every round
    consumes at least one byte, so [length s] rounds are enough. *)
Fixpoint splitLoop (rounds : nat) (s sep : gostring) : list gostring :=
  match rounds with
  | O => [s]
  | S rounds' =>
      match indexOf s sep with
      | None => [s]
      | Some m => take m s :: splitLoop rounds' (drop (m + length sep) s) sep
      end
  end.

Definition Split (s sep : gostring) : list gostring :=
  splitLoop (length s) s sep.

(** [strings.Join] *)
Fixpoint Join (elems : list gostring) (sep : gostring) : gostring :=
  match elems with
  | [] => []
  | [e] => e
  | e :: elems' => e ++ sep ++ Join elems' sep
  end.

(** [strings.ReplaceAll] for a non-empty [old]: every non-overlapping
    occurrence, left to right. *)
Fixpoint replaceLoop (rounds : nat) (s old new : gostring) : gostring :=
  match rounds with
  | O => s
  | S rounds' =>
      match indexOf s old with
      | None => s
      | Some m =>
          take m s ++ new ++ replaceLoop rounds' (drop (m + length old) s) old new
      end
  end.

Definition ReplaceAll (s old new : gostring) : gostring :=
  replaceLoop (length s) s old new.

End strings.

(** ** Package [path/filepath] (Unix build: the separator is the slash) *)
Module filepath.

Definition IsPathSeparator (c : ascii) : bool := Ascii.eqb c "/".

(** The loop of [filepath.Ext], which walks the path from its end;
    [seen] is the part already passed. *)
Fixpoint extScan (rpath : list ascii) (seen : gostring) : gostring :=
  match rpath with
  | [] => []
  | c :: rpath' =>
      if IsPathSeparator c then []
      else if Ascii.eqb c "." then c :: seen
      else extScan rpath' (c :: seen)
  end.

(** [filepath.Ext]: the suffix of the last path element that starts at
    its last dot, empty when there is none. *)
Definition Ext (path : gostring) : gostring := extScan (rev path) [].

End filepath.

(** ** rom.go *)

(** [Rom] holds information about a file. *)
Record Rom := mkRom {
  FileName : gostring;
  Name : gostring;
  AlternateNames : list gostring
}.

(** [containsItem]: is the string present in the slice. *)
Fixpoint containsItem (haystack : list gostring) (needle : gostring) : bool :=
  match haystack with
  | [] => false
  | i :: haystack' =>
      if decide (i = needle) then true else containsItem haystack' needle
  end.

(** [uniqueItems]: the unique items of a slice, first occurrences kept. *)
Definition uniqueItems (slice : list gostring) : list gostring :=
  fold_left
    (fun uniqueSlice item =>
       if negb (containsItem uniqueSlice item) then uniqueSlice ++ [item]
       else uniqueSlice)
    slice [].

(** [getBaseName]: the file name minus extensions and tags.  The loop over
    the three markers cuts the running [fileName] at the marker's first
    index when that index is positive. *)
Definition cutAtMarker (fileName substr : gostring) : gostring :=
  let i := strings.Index fileName substr in
  if 0 <? i then take (Z.to_nat i) fileName else fileName.

Definition markers : list gostring := ["." : gostring; "[" : gostring; "(" : gostring].

Definition getBaseName (fileName : gostring) : gostring :=
  let fileName := fold_left cutAtMarker markers fileName in
  strings.ToLower (strings.TrimSpace fileName).

(** The corrected name of the "the " branch: ", the" goes after the first
    " - "-separated part of what follows the article. *)
Definition commaForm (name : gostring) : gostring :=
  match strings.Split (drop 4 name) " - " with
  | part0 :: nameParts => strings.Join ((part0 ++ ", the") :: nameParts) " - "
  | [] => []
  end.

(** The corrected name of the ", the" branch. *)
Definition prefixForm (name : gostring) : gostring :=
  let i := Z.to_nat (strings.Index name ", the") in
  "the " ++ take i name ++ drop (i + 5) name.

(** [getAlternateNames].  The inner call passes [recursive = false] and so
    calls no further: [depth] bounds the nesting, and one level is all the
    source can reach. *)
Fixpoint getAlternateNamesAt (depth : nat) (name : gostring) (recursive : bool)
  : list gostring :=
  let name := strings.ToLower name in
  let alternates := [name] in
  let alternates :=
    if strings.HasPrefix name "the " || strings.Contains name ", the" then
      let correctedName :=
        if strings.HasPrefix name "the " then commaForm name else prefixForm name in
      let alternates := alternates ++ [correctedName] in
      if recursive then
        match depth with
        | S depth' => alternates ++ getAlternateNamesAt depth' correctedName false
        | O => alternates
        end
      else alternates
    else alternates in
  let alternates :=
    if 0 <=? strings.Index name "'" then
      alternates ++ [strings.ReplaceAll name "'" ""]
    else alternates in
  uniqueItems alternates.

Definition getAlternateNames (name : gostring) (recursive : bool) : list gostring :=
  getAlternateNamesAt 1 name recursive.

(** [NewRom] builds a ROM and works out all the alternate names. *)
Definition NewRom (fileName : gostring) : Rom :=
  let baseName := getBaseName fileName in
  {| FileName := fileName;
     Name := baseName;
     AlternateNames := getAlternateNames baseName true |}.

(** [ConfigName]: the config name that should be used. *)
Definition ConfigName (r : Rom) : gostring :=
  strings.TrimSuffix (FileName r) (filepath.Ext (FileName r)) ++ ".cfg".

(** ** patcher.go *)

(** Go's [error] values are carried by their message. *)
Definition error := gostring.

Inductive result (A : Type) : Type :=
| Ok (a : A)
| Err (e : error).
Arguments Ok {A} a.
Arguments Err {A} e.

(** [FileMangerInterface]: the methods required to interact with the file
    system.  The manager is a mutable object; a method that may change it
    returns the new state. *)
Class FileMangerInterface (M : Type) := {
  GetDirectoryContents : M -> gostring -> result (list gostring);
  CopyFileWithName : M -> gostring -> gostring -> gostring -> M * option error;
  FileExists : M -> gostring -> gostring -> bool
}.

(** [matchType] identifies what match type was used to match two file
    names. *)
Inductive matchType : Set :=
| MatchTypeExact
| MatchTypeAlternate
| MatchTypeFuzzy
| MatchTypeNone.

#[global] Instance matchType_eq_dec : EqDecision matchType.
Proof. solve_decision. Defined.

(** A [*Rom]: the address tells two pointers apart ([==] on pointers), the
    pointee never changes after [NewRom]. *)
Record RomPtr := mkPtr {
  ptrAddr : nat;
  ptrRom : Rom
}.

Definition ptrEq (a b : RomPtr) : bool := Nat.eqb (ptrAddr a) (ptrAddr b).

(** [match]: a match between a config file and a ROM; either side may be
    nil. *)
Record Match := mkMatch {
  configFile : option RomPtr;
  rom : option RomPtr;
  matchKind : matchType;
  isExisting : bool
}.

(** Dereference of a possibly nil pointer.  Go panics on nil; the value
    given here for nil is never used on the matches [matchRomSets] builds
    (see [matchRomSets_shape]). *)
Definition deref (p : option RomPtr) : Rom :=
  match p with
  | Some r => ptrRom r
  | None => mkRom [] [] []
  end.

Definition isPtr (p : option RomPtr) (r : RomPtr) : bool :=
  match p with
  | Some q => ptrEq q r
  | None => false
  end.

(** [shouldInclude]: whether the match type is included in processing for
    the given match flag. *)
Definition shouldInclude (mt matchFlag : matchType) : bool :=
  match mt with
  | MatchTypeNone => false
  | _ =>
      match matchFlag with
      | MatchTypeExact =>
          match mt with MatchTypeExact => true | _ => false end
      | MatchTypeAlternate =>
          match mt with
          | MatchTypeExact | MatchTypeAlternate => true
          | _ => false
          end
      | MatchTypeFuzzy => true
      | MatchTypeNone => false
      end
  end.

(** The body of [matchLoop] for one config file and one ROM: the first of
    the three tests that succeeds appends its match and continues with the
    next ROM. *)
Definition matchPair (matches : list Match) (c r : RomPtr) : list Match :=
  let configFile := ptrRom c in
  let rom := ptrRom r in
  if decide (Name configFile = Name rom) then
    matches ++ [ {| configFile := Some c; rom := Some r;
                    matchKind := MatchTypeExact;
                    isExisting :=
                      bool_decide (strings.ToLower (FileName configFile)
                                   = strings.ToLower (ConfigName rom)) |} ]
  else if existsb (fun romAlternateName =>
                     bool_decide (Name configFile = romAlternateName))
            (AlternateNames rom) then
    matches ++ [ {| configFile := Some c; rom := Some r;
                    matchKind := MatchTypeAlternate; isExisting := false |} ]
  else if existsb (fun romAlternateName =>
                     existsb (fun configAlternateName =>
                                bool_decide (configAlternateName = romAlternateName))
                       (AlternateNames configFile))
            (AlternateNames rom) then
    matches ++ [ {| configFile := Some c; rom := Some r;
                    matchKind := MatchTypeFuzzy; isExisting := false |} ]
  else matches.

Definition positiveFor (side : Match -> option RomPtr) (p : RomPtr) (m : Match) : bool :=
  isPtr (side m) p && negb (bool_decide (matchKind m = MatchTypeNone)).

(** [matchRomSets]: match config files to ROMs, preferring exact matches,
    then alternate matches, then fuzzy matches; afterwards a no-match record
    for every ROM and every config file without a match. *)
Definition matchRomSets (configFiles romSet : list RomPtr) : list Match :=
  let matches :=
    fold_left (fun matches c => fold_left (fun matches r => matchPair matches c r) romSet matches)
      configFiles [] in
  let matches :=
    fold_left
      (fun matches r =>
         if existsb (positiveFor rom r) matches then matches
         else matches ++ [ {| configFile := None; rom := Some r;
                              matchKind := MatchTypeNone; isExisting := false |} ])
      romSet matches in
  fold_left
    (fun matches c =>
       if existsb (positiveFor configFile c) matches then matches
       else matches ++ [ {| configFile := Some c; rom := None;
                            matchKind := MatchTypeNone; isExisting := false |} ])
    configFiles matches.

(** What a run asks of the outside world: a [CopyFileWithName] call on the
    file manager, and the [os.WriteFile] of the log ([filepath.Join] of the
    directory and the name is kept as the pair). *)
Inductive Event :=
| EvCopy (directoryPath srcFileName newFileName : gostring)
| EvWriteFile (directoryPath fileName data : gostring).

Definition isCopy (e : Event) : bool :=
  match e with EvCopy _ _ _ => true | EvWriteFile _ _ _ => false end.

(** ** Packages [fmt] and [sort] *)
Module fmt.

(** The digit loop of the [%d] verb. *)
Fixpoint digits (rounds : nat) (n : N) (acc : gostring) : gostring :=
  let acc := ascii_of_N (48 + n mod 10) :: acc in
  match rounds with
  | O => acc
  | S rounds' => if (n <? 10)%N then acc else digits rounds' (n / 10) acc
  end.

(** [%d] *)
Definition formatInt (z : Z) : gostring :=
  let n := Z.to_N (Z.abs z) in
  (if z <? 0 then ["-"%char] else []) ++ digits (N.to_nat (N.log2 n)) n [].

End fmt.

Module sort.

(** The order [<] of Go strings: byte-wise lexicographic. *)
Fixpoint less (a b : gostring) : bool :=
  match a, b with
  | _, [] => false
  | [], _ :: _ => true
  | x :: a', y :: b' =>
      let nx := N_of_ascii x in
      let ny := N_of_ascii y in
      if (nx <? ny)%N then true
      else if (ny <? nx)%N then false
      else less a' b'
  end.

Fixpoint insert (x : gostring) (l : list gostring) : list gostring :=
  match l with
  | [] => [x]
  | y :: l' => if less y x then y :: insert x l' else x :: l
  end.

(** [sort.Sort(sort.StringSlice(s))]: the slice in ascending order.  Two
    strings that compare equal are the same string, so the ascending
    arrangement is unique whatever the algorithm. *)
Definition Strings (s : list gostring) : list gostring :=
  fold_right insert [] s.

End sort.

Definition sortAlphabetical (s : list gostring) : list gostring := sort.Strings s.

Definition skipped (mt matchFlag : matchType) : gostring :=
  if negb (shouldInclude mt matchFlag) then " [SKIPPED]" else "".

(** The three slices [produceLog] fills while it walks the matches. *)
Record Tally := mkTally {
  romsWithoutConfig : list gostring;
  configWithoutRoms : list gostring;
  createdFiles : matchType -> list gostring
}.

Definition tallyStep (t : Tally) (m : Match) : Tally :=
  if decide (matchKind m = MatchTypeNone) then
    match configFile m with
    | Some c =>
        mkTally (romsWithoutConfig t)
          (configWithoutRoms t ++ [FileName (ptrRom c)]) (createdFiles t)
    | None =>
        mkTally (romsWithoutConfig t ++ [FileName (deref (rom m))])
          (configWithoutRoms t) (createdFiles t)
    end
  else if isExisting m then t
  else if bool_decide (strings.ToLower (ConfigName (deref (rom m)))
                       <> strings.ToLower (FileName (deref (configFile m)))) then
    mkTally (romsWithoutConfig t) (configWithoutRoms t)
      (fun k =>
         if decide (k = matchKind m) then
           createdFiles t k
             ++ [FileName (deref (rom m)) ++ " -> " ++ ConfigName (deref (rom m))
                 ++ " copied from: " ++ FileName (deref (configFile m))]
         else createdFiles t k)
  else t.

Definition tally (matches : list Match) : Tally :=
  fold_left tallyStep matches (mkTally [] [] (fun _ => [])).

Definition lenZ {A} (l : list A) : Z := Z.of_nat (length l).

Definition section (title : gostring) (items : list gostring) : gostring :=
  if 0 <? lenZ items then
    title ++ ["010"%char] ++ strings.Join (sortAlphabetical items) ["010"%char]
      ++ ["010"%char; "010"%char]
  else [].

(** The text [produceLog] assembles. *)
Definition logText (commit : bool) (romCount configCount : Z)
    (romDirPath configPath : gostring) (matches : list Match)
    (matchFlag : matchType) : gostring :=
  let t := tally matches in
  let nl := ["010"%char] in
  let log := if negb commit then "[DRY]" ++ nl ++ nl else [] in
  let log := log ++ "Found " ++ fmt.formatInt configCount ++ " config files in: "
               ++ configPath ++ nl ++ "Found " ++ fmt.formatInt romCount
               ++ " roms in: " ++ romDirPath ++ nl ++ nl in
  let log := log ++ "Missing ROMs: " ++ fmt.formatInt (lenZ (configWithoutRoms t))
               ++ nl ++ "Missing config: "
               ++ fmt.formatInt (lenZ (romsWithoutConfig t)) ++ nl ++ nl in
  let totalFileCount :=
    lenZ (createdFiles t MatchTypeExact) + lenZ (createdFiles t MatchTypeAlternate)
    + lenZ (createdFiles t MatchTypeFuzzy) in
  let skippedOf k :=
    if negb (shouldInclude k matchFlag) then lenZ (createdFiles t k) else 0 in
  let skippedFileCount :=
    skippedOf MatchTypeExact + skippedOf MatchTypeAlternate + skippedOf MatchTypeFuzzy in
  let createdFilesCount := totalFileCount - skippedFileCount in
  let log := log ++ "Created " ++ fmt.formatInt createdFilesCount ++ " new files" ++ nl in
  let log := log ++ "Skipped " ++ fmt.formatInt skippedFileCount ++ " new files"
               ++ nl ++ nl in
  let log := log ++ section "CONFIG WITH MISSING ROMS" (configWithoutRoms t) in
  let log := log ++ section "ROMS WITH MISSING CONFIG" (romsWithoutConfig t) in
  let log := log ++ section ("NEW FILES (EXACT MATCHES)" ++ skipped MatchTypeExact matchFlag)
                      (createdFiles t MatchTypeExact) in
  let log := log ++ section ("NEW FILES (GOOD MATCHES)" ++ skipped MatchTypeAlternate matchFlag)
                      (createdFiles t MatchTypeAlternate) in
  log ++ section ("NEW FILES (FUZZY MATCHES)" ++ skipped MatchTypeFuzzy matchFlag)
           (createdFiles t MatchTypeFuzzy).

(** [writeLogToFile]: the log goes to a time-stamped file in the config
    directory; [now] is [time.Now().Unix()]. *)
Definition writeLogToFile (configDirPath log : gostring) (now : Z) : list Event :=
  [EvWriteFile configDirPath ("patch-log." ++ fmt.formatInt now ++ ".log") log].

(** [produceLog] writes the log file; an error of the write is swallowed. *)
Definition produceLog (commit : bool) (romCount configCount : Z)
    (romDirPath configPath : gostring) (matches : list Match)
    (matchFlag : matchType) (now : Z) : list Event :=
  writeLogToFile configPath
    (logText commit romCount configCount romDirPath configPath matches matchFlag) now.

(** [Patcher]: the dependencies needed to patch a directory. *)
Record Patcher (M : Type) := mkPatcher {
  fileManager : M;
  commit : bool
}.
Arguments mkPatcher {M} _ _.
Arguments fileManager {M} _.
Arguments commit {M} _.

Definition NewPatcher {M} (fileManager : M) (commit : bool) : Patcher M :=
  mkPatcher fileManager commit.

(** [make([]*Rom, n)] filled with [NewRom(item)]: every element is a fresh
    object, here with addresses counted up from [base]. *)
Fixpoint newRoms (base : nat) (items : list gostring) : list RomPtr :=
  match items with
  | [] => []
  | item :: items' => mkPtr base (NewRom item) :: newRoms (S base) items'
  end.

(** The state of the loop over the matches in [PatchDirectory]: the file
    manager, the matches already visited (a visit may set [isExisting]
    through the pointer) and the requests issued. *)
Record PatchState (M : Type) := mkState {
  stManager : M;
  stMatches : list Match;
  stEvents : list Event
}.
Arguments mkState {M} _ _ _.
Arguments stManager {M} _.
Arguments stMatches {M} _.
Arguments stEvents {M} _.

Section Patching.
Context {M : Type} `{FileMangerInterface M}.

Definition patchStep (commit : bool) (configDirPath : gostring)
    (matchFlag : matchType) (st : PatchState M) (m : Match) : PatchState M :=
  let keep := mkState (stManager st) (stMatches st ++ [m]) (stEvents st) in
  if negb (bool_decide (matchKind m = MatchTypeNone)) then
    if negb (isExisting m) && shouldInclude (matchKind m) matchFlag then
      if FileExists (stManager st) configDirPath (ConfigName (deref (rom m))) then
        mkState (stManager st)
          (stMatches st ++ [mkMatch (configFile m) (rom m) (matchKind m) true])
          (stEvents st)
      else if commit then
        let src := FileName (deref (configFile m)) in
        let new := ConfigName (deref (rom m)) in
        mkState (CopyFileWithName (stManager st) configDirPath src new).1
          (stMatches st ++ [m])
          (stEvents st ++ [EvCopy configDirPath src new])
      else keep
    else keep
  else keep.

(** The outcome of [PatchDirectory]: the returned error, the file manager
    afterwards, the requests issued, and the final value of the local
    [matches]. *)
Record Run := mkRun {
  runError : option error;
  runManager : M;
  runEvents : list Event;
  runMatches : list Match
}.

Definition filterConfigs (configDirFiles : list gostring) : list gostring :=
  List.filter (fun file => bool_decide (filepath.Ext file = (".cfg" : gostring)))
    configDirFiles.

(** [PatchDirectory] patches the config directory with the ROMs of the ROM
    directory; new files are only created if the match type fits the match
    flag. *)
Definition PatchDirectory (p : Patcher M) (configDirPath romDirPath : gostring)
    (matchFlag : matchType) (now : Z) : Run :=
  match GetDirectoryContents (fileManager p) configDirPath with
  | Err e => mkRun (Some e) (fileManager p) [] []
  | Ok configDirFiles =>
      match GetDirectoryContents (fileManager p) romDirPath with
      | Err e => mkRun (Some e) (fileManager p) [] []
      | Ok romDirFiles =>
          let filteredConfigDirFiles := filterConfigs configDirFiles in
          let configFiles := newRoms 0 filteredConfigDirFiles in
          let roms := newRoms (length filteredConfigDirFiles) romDirFiles in
          let matches := matchRomSets configFiles roms in
          let st :=
            fold_left (patchStep (commit p) configDirPath matchFlag) matches
              (mkState (fileManager p) [] []) in
          mkRun None (stManager st)
            (stEvents st
             ++ produceLog (commit p) (lenZ roms) (lenZ configFiles) romDirPath
                  configDirPath (stMatches st) matchFlag now)
            (stMatches st)
      end
  end.

End Patching.
Arguments Run M : clear implicits.

(** ** The in-memory file manager of the tests (test/file_manager.go) *)
Record stubFileManager := mkStub {
  directories : gmap gostring (list gostring)
}.

Definition NewStubFileManager : stubFileManager := mkStub ∅.

Definition SetDirectoryContents (m : stubFileManager) (directoryPath : gostring)
    (contents : list gostring) : stubFileManager :=
  mkStub (<[directoryPath := contents]> (directories m)).

Fixpoint inSlice (s : gostring) (slice : list gostring) : bool :=
  match slice with
  | [] => false
  | item :: slice' => if decide (s = item) then true else inSlice s slice'
  end.

Definition stubGetDirectoryContents (m : stubFileManager) (directoryPath : gostring)
  : result (list gostring) :=
  match directories m !! directoryPath with
  | Some contents => Ok contents
  | None => Err ("directory does not exist" : gostring)
  end.

Definition stubCopyFileWithName (m : stubFileManager)
    (directoryPath fileName newName : gostring) : stubFileManager * option error :=
  match stubGetDirectoryContents m directoryPath with
  | Err e => (m, Some e)
  | Ok contents =>
      if negb (inSlice fileName contents) then
        (m, Some ("file does not exist" : gostring))
      else
        (mkStub (<[directoryPath :=
                     default [] (directories m !! directoryPath) ++ [newName]]>
                   (directories m)), None)
  end.

Definition stubFileExists (m : stubFileManager) (directoryPath fileName : gostring)
  : bool :=
  match directories m !! directoryPath with
  | None => false
  | Some files => existsb (fun f => bool_decide (f = fileName)) files
  end.

#[global] Instance stub_manager : FileMangerInterface stubFileManager := {
  GetDirectoryContents := stubGetDirectoryContents;
  CopyFileWithName := stubCopyFileWithName;
  FileExists := stubFileExists
}.

(** ** main.go: the command line *)
Module cmd.

(** The flags and arguments [flag.Parse] delivers. *)
Record Flags := mkFlags {
  commitFlag : bool;
  exactOnly : bool;
  fuzzyMatching : bool;
  args : list gostring
}.

(** What [main] goes on to do. *)
Inductive Action :=
| WrongArguments
| ConflictingFlags
| Patch (commit : bool) (configDirectory romDirectory : gostring)
    (matchFlag : matchType).

Definition matchFlagOf (exactOnly fuzzyMatching : bool) : matchType :=
  if exactOnly then MatchTypeExact
  else if fuzzyMatching then MatchTypeFuzzy
  else MatchTypeAlternate.

(** [main] of the command with the [--exact-only] and [--fuzzy] flags. *)
Definition main (f : Flags) : Action :=
  match args f with
  | [configDirectory; romDirectory] =>
      if exactOnly f && fuzzyMatching f then ConflictingFlags
      else Patch (commitFlag f) configDirectory romDirectory
             (matchFlagOf (exactOnly f) (fuzzyMatching f))
  | _ => WrongArguments
  end.

(** [main] of the command that has the [--commit] flag only: it always
    asks for fuzzy matching. *)
Definition mainCommitOnly (commitFlag : bool) (args : list gostring) : Action :=
  match args with
  | [configDirectory; romDirectory] =>
      Patch commitFlag configDirectory romDirectory MatchTypeFuzzy
  | _ => WrongArguments
  end.

End cmd.

(** ** Test fixtures (test/patcher_test.go) *)
Definition romDirectoryPath : gostring := "C:\Games\N64".
Definition bezelDirectoryPath : gostring := "C:\Retroarch\config\Mupen".

(** The stub with the two directories set, as every test prepares it. *)
Definition stubWith (romDirContents bezelDirContents : list gostring) : stubFileManager :=
  SetDirectoryContents
    (SetDirectoryContents NewStubFileManager romDirectoryPath romDirContents)
    bezelDirectoryPath bezelDirContents.

(** * Properties *)

(** ** Strings *)
Section StringFacts.

Lemma lowerByte_idem c : strings.lowerByte (strings.lowerByte c) = strings.lowerByte c.
Proof. destruct c as [[] [] [] [] [] [] [] []]; reflexivity. Qed.

Lemma ToLower_idem s : strings.ToLower (strings.ToLower s) = strings.ToLower s.
Proof.
  unfold strings.ToLower. rewrite map_map.
  apply map_ext. intros c. apply lowerByte_idem.
Qed.

Lemma ToLower_app s t :
  strings.ToLower (s ++ t) = strings.ToLower s ++ strings.ToLower t.
Proof. apply map_app. Qed.

Lemma ToLower_length s : length (strings.ToLower s) = length s.
Proof. apply length_map. Qed.

Lemma containsItem_true haystack needle :
  containsItem haystack needle = true <-> needle ∈ haystack.
Proof.
  induction haystack as [|i haystack IH]; simpl.
  - split; [discriminate | intros Hin; inversion Hin].
  - destruct (decide (i = needle)) as [->|Hne].
    + split; [intros _; left | reflexivity].
    + rewrite IH. split; [intros Hin; by right |].
      intros Hin. inversion Hin; subst; [congruence | assumption].
Qed.

Lemma uniqueLoop_elem slice : forall acc x,
  x ∈ fold_left
        (fun uniqueSlice item =>
           if negb (containsItem uniqueSlice item) then uniqueSlice ++ [item]
           else uniqueSlice) slice acc
  <-> x ∈ acc \/ x ∈ slice.
Proof.
  induction slice as [|item slice IH]; intros acc x; simpl.
  - rewrite elem_of_nil. tauto.
  - rewrite IH, elem_of_cons.
    destruct (containsItem acc item) eqn:Hc; simpl.
    + apply containsItem_true in Hc.
      split; [tauto |]. intros [?|[->|?]]; tauto.
    + rewrite elem_of_app, list_elem_of_singleton. tauto.
Qed.

(** [uniqueItems] keeps exactly the elements of its argument. *)
Lemma uniqueItems_elem slice x : x ∈ uniqueItems slice <-> x ∈ slice.
Proof.
  unfold uniqueItems. rewrite uniqueLoop_elem, elem_of_nil. tauto.
Qed.

End StringFacts.

(** ** The normaliser *)

(** The lower-cased name is the first alternate collected, whatever the
    branches add. *)
Lemma getAlternateNamesAt_self depth name recursive :
  strings.ToLower name ∈ getAlternateNamesAt depth name recursive.
Proof.
  destruct depth; simpl; apply uniqueItems_elem;
    repeat match goal with
      | |- context [if ?b then _ else _] => destruct b
      end;
    rewrite ?elem_of_app, ?elem_of_cons; tauto.
Qed.

Lemma getBaseName_lower f : strings.ToLower (getBaseName f) = getBaseName f.
Proof. unfold getBaseName. apply ToLower_idem. Qed.

(** C5: for every file name, the base name [NewRom] computes is one of the
    alternate names of the record it builds. *)
Theorem NewRom_name_in_alternates (f : gostring) :
  Name (NewRom f) ∈ AlternateNames (NewRom f).
Proof.
  unfold NewRom, getAlternateNames; cbn [Name AlternateNames].
  rewrite <- (getBaseName_lower f) at 1.
  apply getAlternateNamesAt_self.
Qed.

(** ** The command line *)

(** C4 as stated does not hold: without [--exact-only] and [--fuzzy] the
    match flag is not fuzzy, and a fuzzy match is not eligible. *)
Lemma default_flag_not_fuzzy :
  cmd.main (cmd.mkFlags false false false ["cfg" : gostring; "roms" : gostring])
    = cmd.Patch false "cfg" "roms" MatchTypeAlternate
  /\ cmd.matchFlagOf false false <> MatchTypeFuzzy
  /\ shouldInclude MatchTypeFuzzy (cmd.matchFlagOf false false) = false.
Proof. repeat split; discriminate. Qed.

(** C4, amended: with neither tier flag the match flag handed to
    [PatchDirectory] is alternate, so exact and alternate matches are
    eligible for copying and fuzzy (and none) matches are not; fuzzy matches
    become eligible only with [--fuzzy]. *)
Theorem default_flag_is_alternate (c : bool) (configDirectory romDirectory : gostring) :
  cmd.main (cmd.mkFlags c false false [configDirectory; romDirectory])
    = cmd.Patch c configDirectory romDirectory MatchTypeAlternate
  /\ (forall mt, shouldInclude mt (cmd.matchFlagOf false false)
                 = bool_decide (mt = MatchTypeExact \/ mt = MatchTypeAlternate))
  /\ (forall exactOnly fuzzyMatching,
        shouldInclude MatchTypeFuzzy (cmd.matchFlagOf exactOnly fuzzyMatching) = true
        <-> exactOnly = false /\ fuzzyMatching = true).
Proof.
  split; [reflexivity |]. split.
  - intros []; reflexivity.
  - intros [] []; simpl; intuition discriminate.
Qed.

(** ** [getBaseName] *)
Section Index.

Lemma HasPrefix_char s c :
  strings.HasPrefix s [c] = match s with x :: _ => Ascii.eqb x c | [] => false end.
Proof. destruct s as [|x [|y s]]; simpl; [reflexivity | apply andb_true_r ..]. Qed.

Lemma indexOf_char_cons x s c :
  strings.indexOf (x :: s) [c]
  = if Ascii.eqb x c then Some 0%nat else S <$> strings.indexOf s [c].
Proof.
  change (strings.indexOf (x :: s) [c])
    with (if strings.HasPrefix (x :: s) [c] then Some 0%nat
          else S <$> strings.indexOf s [c]).
  by rewrite HasPrefix_char.
Qed.

Lemma indexOf_char_nil c : strings.indexOf [] [c] = None.
Proof. reflexivity. Qed.

Lemma indexOf_char_lt s c i :
  strings.indexOf s [c] = Some i -> (i < length s)%nat.
Proof.
  revert i. induction s as [|x s IH]; intros i; [discriminate |].
  rewrite indexOf_char_cons. destruct (Ascii.eqb x c).
  - intros [= <-]. simpl. lia.
  - destruct (strings.indexOf s [c]) as [j|]; [|discriminate].
    intros [= <-]. specialize (IH j eq_refl). simpl. lia.
Qed.

(** Cutting a string keeps the first index of a byte when it lies before
    the cut and loses it otherwise. *)
Lemma indexOf_char_take s c : forall n,
  strings.indexOf (take n s) [c]
  = match strings.indexOf s [c] with
    | Some i => if (i <? n)%nat then Some i else None
    | None => None
    end.
Proof.
  induction s as [|x s IH]; intros n.
  - by rewrite take_nil.
  - destruct n as [|n].
    + simpl take. rewrite indexOf_char_nil.
      by destruct (strings.indexOf (x :: s) [c]).
    + simpl take. rewrite !indexOf_char_cons.
      destruct (Ascii.eqb x c); [reflexivity |].
      rewrite IH. destruct (strings.indexOf s [c]) as [i|]; [|reflexivity].
      simpl. change (S i <? S n)%nat with (i <? n)%nat.
      by destruct (i <? n)%nat.
Qed.

Lemma Index_char_range s c : -1 <= strings.Index s [c] < lenZ s.
Proof.
  unfold strings.Index, lenZ.
  destruct (strings.indexOf s [c]) as [i|] eqn:Hi; [|lia].
  apply indexOf_char_lt in Hi. lia.
Qed.

Lemma Index_char_take s c a :
  0 <= a ->
  strings.Index (take (Z.to_nat a) s) [c]
  = if (0 <=? strings.Index s [c]) && (strings.Index s [c] <? a)
    then strings.Index s [c] else -1.
Proof.
  intros Ha. unfold strings.Index. rewrite indexOf_char_take.
  destruct (strings.indexOf s [c]) as [i|]; [|reflexivity].
  destruct (Nat.ltb_spec i (Z.to_nat a)), (Z.ltb_spec (Z.of_nat i) a),
    (Z.leb_spec 0 (Z.of_nat i)); simpl; try reflexivity; lia.
Qed.

End Index.

(** The smallest positive first index of a marker in [fileName], and the
    length of [fileName] when no marker has a positive first index. *)
Definition cutIndex (fileName : gostring) : Z :=
  foldr Z.min (lenZ fileName)
    (List.filter (fun i => 0 <? i) (map (strings.Index fileName) markers)).

(** One round of the marker loop on a prefix of the file name. *)
Lemma cutAtMarker_take f c a :
  0 <= a ->
  cutAtMarker (take (Z.to_nat a) f) [c]
  = take (Z.to_nat (let i := strings.Index f [c] in
                    if (0 <? i) && (i <? a) then i else a)) f.
Proof.
  intros Ha. unfold cutAtMarker. rewrite Index_char_take by assumption.
  cbv zeta. pose proof (Index_char_range f c) as Hr.
  destruct (Z.leb_spec 0 (strings.Index f [c])),
    (Z.ltb_spec (strings.Index f [c]) a); simpl;
    destruct (Z.ltb_spec 0 (strings.Index f [c])); simpl;
    try reflexivity; try lia.
  rewrite take_take. f_equal. lia.
Qed.

Lemma cutStep_nonneg a i : 0 <= a -> 0 <= (if (0 <? i) && (i <? a) then i else a).
Proof. intros Ha. destruct (Z.ltb_spec 0 i), (Z.ltb_spec i a); simpl; lia. Qed.

Lemma cutStep_min a i :
  (if (0 <? i) && (i <? a) then i else a) = if 0 <? i then Z.min i a else a.
Proof. destruct (Z.ltb_spec 0 i), (Z.ltb_spec i a); simpl; lia. Qed.

Lemma getBaseName_cutIndex f :
  fold_left cutAtMarker markers f = take (Z.to_nat (cutIndex f)) f.
Proof.
  unfold markers. cbn [fold_left list_ascii_of_string].
  rewrite <- (firstn_all f) at 1.
  replace (length f) with (Z.to_nat (lenZ f)) by (unfold lenZ; lia).
  assert (0 <= lenZ f) as Hl by (unfold lenZ; lia).
  rewrite cutAtMarker_take by assumption. cbv zeta.
  rewrite cutAtMarker_take by (by apply cutStep_nonneg). cbv zeta.
  rewrite cutAtMarker_take by (by do 2 apply cutStep_nonneg). cbv zeta.
  f_equal. f_equal. rewrite !cutStep_min. unfold cutIndex, markers.
  cbn [map List.filter list_ascii_of_string].
  destruct (Z.ltb_spec 0 (strings.Index f ["."%char])),
    (Z.ltb_spec 0 (strings.Index f ["["%char])),
    (Z.ltb_spec 0 (strings.Index f ["("%char])); cbn [foldr]; lia.
Qed.

(** The claim's wording of the truncation point: the first position past 0
    that holds one of the three markers. *)
Definition isMarkerByte (c : ascii) : bool :=
  Ascii.eqb c "." || Ascii.eqb c "[" || Ascii.eqb c "(".

Fixpoint firstMarker (s : gostring) : option nat :=
  match s with
  | [] => None
  | c :: s' => if isMarkerByte c then Some 0%nat else S <$> firstMarker s'
  end.

Definition firstMarkerPastZero (fileName : gostring) : option nat :=
  match fileName with
  | [] => None
  | _ :: rest => S <$> firstMarker rest
  end.

Definition baseNameAsStated (fileName : gostring) : gostring :=
  strings.ToLower
    (strings.TrimSpace
       (match firstMarkerPastZero fileName with
        | Some i => take i fileName
        | None => fileName
        end)).

(** C6 as stated does not hold: the name below begins with a parenthesis, so
    the loop never cuts at a parenthesis, although one occurs past position
    0; the stated rule would cut there. *)
Lemma getBaseName_leading_marker :
  getBaseName "(Proto) Mario (USA).n64" = ("(proto) mario (usa)" : gostring)
  /\ baseNameAsStated "(Proto) Mario (USA).n64" = ("(proto) mario" : gostring)
  /\ getBaseName "(Proto) Mario (USA).n64" <> baseNameAsStated "(Proto) Mario (USA).n64".
Proof. repeat split. discriminate. Qed.

(** C6, amended: [getBaseName] cuts the file name at the smallest positive
    one among the first indices of ".", "[" and "(" (a marker whose first
    occurrence is at position 0 is not used, its later occurrences
    included), keeps the whole name when there is none, and trims and
    lower-cases what is left; a non-empty name is never cut at position 0. *)
Theorem getBaseName_truncation (fileName : gostring) :
  getBaseName fileName
  = strings.ToLower (strings.TrimSpace (take (Z.to_nat (cutIndex fileName)) fileName))
  /\ (fileName = [] \/ 0 < cutIndex fileName).
Proof.
  split.
  - unfold getBaseName. by rewrite getBaseName_cutIndex.
  - destruct fileName as [|c f]; [by left | right].
    unfold cutIndex.
    induction (map (strings.Index (c :: f)) markers) as [|i l IH]; simpl.
    + unfold lenZ. simpl. lia.
    + destruct (Z.ltb_spec 0 i); simpl; lia.
Qed.

(** Where the name does not begin with a marker the stated rule and the
    loop agree. *)
Section AsStated.

Let orLen (r : gostring) (o : option nat) : Z :=
  match o with Some i => Z.of_nat i | None => lenZ r end.

Lemma firstMarker_min r :
  orLen r (firstMarker r)
  = Z.min (orLen r (strings.indexOf r ["."%char]))
      (Z.min (orLen r (strings.indexOf r ["["%char]))
         (orLen r (strings.indexOf r ["("%char]))).
Proof.
  induction r as [|x r IH]; [reflexivity |].
  rewrite !indexOf_char_cons. cbn [firstMarker]. unfold isMarkerByte.
  revert IH. unfold orLen, lenZ.
  destruct (firstMarker r), (strings.indexOf r ["."%char]),
    (strings.indexOf r ["["%char]), (strings.indexOf r ["("%char]),
    (Ascii.eqb x "."), (Ascii.eqb x "["), (Ascii.eqb x "(");
    cbn [orb fmap option_fmap option_map length]; lia.
Qed.

Lemma cutIndex_cons x r :
  isMarkerByte x = false ->
  cutIndex (x :: r) = 1 + orLen r (firstMarker r).
Proof.
  unfold isMarkerByte. intros Hx.
  apply orb_false_elim in Hx as [Hx E3]. apply orb_false_elim in Hx as [E1 E2].
  rewrite firstMarker_min. unfold cutIndex, markers, strings.Index.
  cbn [map list_ascii_of_string]. rewrite !indexOf_char_cons, E1, E2, E3.
  pose proof (indexOf_char_lt r "."%char) as Hd.
  pose proof (indexOf_char_lt r "["%char) as Hb.
  pose proof (indexOf_char_lt r "("%char) as Hp.
  unfold orLen, lenZ in *.
  destruct (strings.indexOf r ["."%char]) as [d|],
    (strings.indexOf r ["["%char]) as [b|],
    (strings.indexOf r ["("%char]) as [p|]; simpl;
    try specialize (Hd _ eq_refl); try specialize (Hb _ eq_refl);
    try specialize (Hp _ eq_refl); lia.
Qed.

Lemma getBaseName_as_stated (fileName : gostring) :
  match fileName with x :: _ => isMarkerByte x | [] => false end = false ->
  getBaseName fileName = baseNameAsStated fileName.
Proof.
  intros Hx. unfold getBaseName, baseNameAsStated.
  rewrite getBaseName_cutIndex. do 2 f_equal.
  destruct fileName as [|x r]; [reflexivity |].
  rewrite cutIndex_cons by assumption. unfold firstMarkerPastZero, orLen, lenZ.
  destruct (firstMarker r) as [i|]; cbn [fmap option_fmap option_map].
  - f_equal. lia.
  - replace (Z.to_nat (1 + Z.of_nat (length r))) with (length (x :: r))
      by (simpl; lia).
    apply firstn_all.
Qed.

End AsStated.

(** ** Alternate names *)
Section Occurrences.

Lemma HasPrefix_true s p : strings.HasPrefix s p = true <-> exists t, s = p ++ t.
Proof.
  revert s. induction p as [|c p IH]; intros s.
  - split; [intros _; by exists s | by destruct s].
  - destruct s as [|x s]; simpl.
    + split; [discriminate | intros [t Ht]; discriminate].
    + rewrite andb_true_iff, IH, Ascii.eqb_eq. split.
      * intros [-> [t ->]]. by exists t.
      * intros [t [= -> ->]]. split; [reflexivity | by exists t].
Qed.

(** [indexOf] finds an occurrence: the string is what precedes it, the
    substring, and what follows. *)
Lemma indexOf_Some s sub i :
  strings.indexOf s sub = Some i ->
  s = take i s ++ sub ++ drop (i + length sub) s.
Proof.
  revert i. induction s as [|x s IH]; intros i.
  - destruct sub; simpl; [by intros [= <-] | discriminate].
  - change (strings.indexOf (x :: s) sub)
      with (if strings.HasPrefix (x :: s) sub then Some 0%nat
            else S <$> strings.indexOf s sub).
    destruct (strings.HasPrefix (x :: s) sub) eqn:Hp.
    + intros [= <-]. apply HasPrefix_true in Hp as [t Ht].
      rewrite Ht. change (0 + length sub)%nat with (length sub).
      by rewrite drop_app_length.
    + destruct (strings.indexOf s sub) as [j|]; [|discriminate].
      intros [= <-]. simpl. f_equal. by apply IH.
Qed.

(** A string that contains the substring has an index for it. *)
Lemma indexOf_app a sub b : is_Some (strings.indexOf (a ++ sub ++ b) sub).
Proof.
  induction a as [|x a IH].
  - simpl app. destruct (sub ++ b) as [|y t] eqn:E.
    + destruct sub; [by eexists | discriminate].
    + change (strings.indexOf (y :: t) sub)
        with (if strings.HasPrefix (y :: t) sub then Some 0%nat
              else S <$> strings.indexOf t sub).
      assert (strings.HasPrefix (y :: t) sub = true) as ->; [|by eexists].
      apply HasPrefix_true. by exists b.
  - change (strings.indexOf ((x :: a) ++ sub ++ b) sub)
      with (if strings.HasPrefix (x :: a ++ sub ++ b) sub then Some 0%nat
            else S <$> strings.indexOf (a ++ sub ++ b) sub).
    destruct (strings.HasPrefix _ sub); [by eexists |].
    destruct IH as [j ->]. by eexists.
Qed.

Lemma Contains_app a sub b : strings.Contains (a ++ sub ++ b) sub = true.
Proof.
  unfold strings.Contains, strings.Index.
  destruct (indexOf_app a sub b) as [i ->]. apply Z.leb_le. lia.
Qed.

Lemma splitLoop_cons rounds s sep :
  exists part0 parts, strings.splitLoop rounds s sep = part0 :: parts.
Proof.
  destruct rounds; simpl; [by eexists _, _ |].
  destruct (strings.indexOf s sep); by eexists _, _.
Qed.

Lemma Join_head e suffix elems sep :
  exists t, strings.Join ((e ++ suffix) :: elems) sep = e ++ suffix ++ t.
Proof.
  destruct elems as [|e' elems]; simpl.
  - exists []. by rewrite app_nil_r.
  - eexists. by rewrite <- app_assoc.
Qed.

End Occurrences.

(** The comma form always contains ", the". *)
Lemma commaForm_contains name : strings.Contains (commaForm name) ", the" = true.
Proof.
  unfold commaForm, strings.Split.
  destruct (splitLoop_cons (length (drop 4 name)) (drop 4 name) " - ")
    as (part0 & parts & ->).
  destruct (Join_head part0 ", the" parts " - ") as [t ->].
  apply Contains_app.
Qed.

(** A name whose prefix form is lower-case is lower-case itself. *)
Lemma prefixForm_lower c :
  strings.Contains c ", the" = true ->
  strings.ToLower (prefixForm c) = prefixForm c ->
  strings.ToLower c = c.
Proof.
  unfold strings.Contains, prefixForm, strings.Index.
  destruct (strings.indexOf c ", the") as [i|] eqn:Hi; [|intros H; by apply Z.leb_le in H].
  intros _. rewrite Nat2Z.id. apply indexOf_Some in Hi.
  change (length (", the" : gostring)) with 5%nat in Hi.
  rewrite !ToLower_app. intros Heq.
  apply app_inj_1 in Heq as [_ Heq]; [|by rewrite ToLower_length].
  apply app_inj_1 in Heq as [H1 H2]; [|by rewrite ToLower_length].
  rewrite Hi, !ToLower_app, H1, H2. reflexivity.
Qed.

(** The apostrophe variant, when there is one. *)
Definition apostropheVariant (name : gostring) : list gostring :=
  if 0 <=? strings.Index name "'" then [strings.ReplaceAll name "'" ""] else [].

(** The list [getAlternateNames] hands to [uniqueItems], piece by piece. *)
Lemma getAlternateNamesAt_unfold depth name recursive :
  getAlternateNamesAt depth name recursive
  = let name := strings.ToLower name in
    uniqueItems
      ([name]
       ++ (if strings.HasPrefix name "the " || strings.Contains name ", the" then
             let correctedName :=
               if strings.HasPrefix name "the " then commaForm name
               else prefixForm name in
             [correctedName]
             ++ (if recursive then
                   match depth with
                   | S depth' => getAlternateNamesAt depth' correctedName false
                   | O => []
                   end
                 else [])
           else [])
       ++ apostropheVariant name).
Proof.
  unfold apostropheVariant.
  destruct depth; cbn [getAlternateNamesAt]; cbv zeta;
    destruct (strings.HasPrefix _ _ || strings.Contains _ _), recursive,
      (0 <=? strings.Index _ _);
    cbn [app]; rewrite ?app_nil_r; reflexivity.
Qed.

(** The members of the result for a lower-case name that starts with
    "the ". *)
Lemma alternates_of_the depth n recursive x :
  strings.ToLower n = n ->
  strings.HasPrefix n "the " = true ->
  x ∈ getAlternateNamesAt depth n recursive
  <-> x = n \/ x = commaForm n
      \/ (recursive = true /\ exists d, depth = S d
          /\ x ∈ getAlternateNamesAt d (commaForm n) false)
      \/ x ∈ apostropheVariant n.
Proof.
  intros Hl Hp. rewrite getAlternateNamesAt_unfold. cbv zeta.
  rewrite Hl, Hp. cbn [orb].
  rewrite uniqueItems_elem, !elem_of_app, !list_elem_of_singleton.
  destruct recursive, depth as [|d]; rewrite ?elem_of_nil;
    (split; [intros [?|[[?|?]|?]]; eauto 10; try tauto
            | intros [?|[?|[(? & ? & ? & ?)|?]]]; try discriminate; try tauto]).
  simplify_eq. tauto.
Qed.

(** The members of the result for a lower-case name that does not start
    with "the " and contains ", the". *)
Lemma alternates_of_comma depth c recursive x :
  strings.ToLower c = c ->
  strings.HasPrefix c "the " = false ->
  strings.Contains c ", the" = true ->
  x ∈ getAlternateNamesAt depth c recursive
  <-> x = c \/ x = prefixForm c
      \/ (recursive = true /\ exists d, depth = S d
          /\ x ∈ getAlternateNamesAt d (prefixForm c) false)
      \/ x ∈ apostropheVariant c.
Proof.
  intros Hl Hp Hc. rewrite getAlternateNamesAt_unfold. cbv zeta.
  rewrite Hl, Hp, Hc. cbn [orb].
  rewrite uniqueItems_elem, !elem_of_app, !list_elem_of_singleton.
  destruct recursive, depth as [|d]; rewrite ?elem_of_nil;
    (split; [intros [?|[[?|?]|?]]; eauto 10; try tauto
            | intros [?|[?|[(? & ? & ? & ?)|?]]]; try discriminate; try tauto]).
  simplify_eq. tauto.
Qed.

(** C7 as stated does not hold: for the base name "the the x" the comma
    form is "the x, the", whose alternates no longer contain the name
    itself. *)
Lemma alternates_the_the_x :
  strings.HasPrefix ("the the x" : gostring) "the " = true
  /\ commaForm "the the x" = ("the x, the" : gostring)
  /\ ("the the x" : gostring) ∈ getAlternateNames "the the x" true
  /\ ~ ("the the x" : gostring) ∈ getAlternateNames (commaForm "the the x") true.
Proof.
  split; [reflexivity |]. split; [reflexivity |].
  split; apply (bool_decide_unpack _); vm_compute; exact I.
Qed.

(** C7, amended: for every lower-case name that begins with "the " and
    whose comma form leads back to it (the comma form does not begin with
    "the " itself, and moving its first ", the" to the front gives the name
    again), the alternate names of the name and of its comma form are the
    same set. *)
Theorem alternates_the_comma_same_set (n : gostring) :
  strings.ToLower n = n ->
  strings.HasPrefix n "the " = true ->
  strings.HasPrefix (commaForm n) "the " = false ->
  prefixForm (commaForm n) = n ->
  forall x, x ∈ getAlternateNames n true <-> x ∈ getAlternateNames (commaForm n) true.
Proof.
  intros Hl Hthe Hnot Hback x.
  pose proof (commaForm_contains n) as Hc.
  assert (strings.ToLower (commaForm n) = commaForm n) as Hlc.
  { apply prefixForm_lower; [assumption | by rewrite Hback]. }
  unfold getAlternateNames.
  rewrite (alternates_of_the 1 n true x Hl Hthe).
  rewrite (alternates_of_comma 1 (commaForm n) true x Hlc Hnot Hc).
  rewrite Hback. split.
  - intros [?|[?|[(_ & d & [= <-] & Hin)|?]]]; try tauto.
    + apply (alternates_of_comma 0 (commaForm n) false x Hlc Hnot Hc) in Hin.
      rewrite Hback in Hin.
      destruct Hin as [?|[?|[(? & _)|?]]]; try discriminate; tauto.
    + right; right; left. split; [reflexivity |]. exists 0%nat.
      split; [reflexivity |].
      apply (alternates_of_the 0 n false x Hl Hthe). tauto.
  - intros [?|[?|[(_ & d & [= <-] & Hin)|?]]]; try tauto.
    + apply (alternates_of_the 0 n false x Hl Hthe) in Hin.
      destruct Hin as [?|[?|[(? & _)|?]]]; try discriminate; tauto.
    + right; right; left. split; [reflexivity |]. exists 0%nat.
      split; [reflexivity |].
      apply (alternates_of_comma 0 (commaForm n) false x Hlc Hnot Hc). tauto.
Qed.

Lemma alternates_new_tetris :
  strings.HasPrefix ("the new tetris" : gostring) "the " = true
  /\ commaForm "the new tetris" = ("new tetris, the" : gostring)
  /\ prefixForm (commaForm "the new tetris") = ("the new tetris" : gostring)
  /\ (("new tetris, the" : gostring) ∈ getAlternateNames "the new tetris" true
      <-> ("new tetris, the" : gostring)
            ∈ getAlternateNames (commaForm "the new tetris") true).
Proof.
  split; [reflexivity |]. split; [reflexivity |]. split; [reflexivity |].
  apply (alternates_the_comma_same_set "the new tetris"); reflexivity.
Defined.

(** ** The matcher *)

(** The three rules of the matcher, for a config file and a ROM. *)
Definition exactRule (c r : Rom) : Prop := Name c = Name r.
Definition alternateRule (c r : Rom) : Prop := Name c ∈ AlternateNames r.
Definition fuzzyRule (c r : Rom) : Prop :=
  exists a, a ∈ AlternateNames c /\ a ∈ AlternateNames r.

(** The matches of a config file and a ROM among [matches]. *)
Definition pairMatches (c r : RomPtr) (matches : list Match) : list Match :=
  List.filter (fun m => isPtr (configFile m) c && isPtr (rom m) r) matches.

Definition noMatchForRom (r : RomPtr) : Match := mkMatch None (Some r) MatchTypeNone false.
Definition noMatchForConfig (c : RomPtr) : Match := mkMatch (Some c) None MatchTypeNone false.

Section Matcher.

Lemma existsb_name_true (x : gostring) l :
  existsb (fun y => bool_decide (x = y)) l = true <-> x ∈ l.
Proof.
  rewrite existsb_exists. split.
  - intros (y & Hy & Hxy). apply bool_decide_eq_true in Hxy as ->.
    by apply list_elem_of_In.
  - intros Hx. exists x. split; [by apply list_elem_of_In | by apply bool_decide_eq_true].
Qed.

Lemma existsb_fuzzy_true c r :
  existsb (fun romAlternateName =>
             existsb (fun configAlternateName =>
                        bool_decide (configAlternateName = romAlternateName))
               (AlternateNames c))
    (AlternateNames r) = true
  <-> fuzzyRule c r.
Proof.
  unfold fuzzyRule. rewrite existsb_exists. split.
  - intros (a & Ha & Hex). apply existsb_exists in Hex as (b & Hb & Hab).
    apply bool_decide_eq_true in Hab as ->.
    exists a. split; by apply list_elem_of_In.
  - intros (a & Hc & Hr). exists a. split; [by apply list_elem_of_In |].
    apply existsb_exists. exists a.
    split; [by apply list_elem_of_In | by apply bool_decide_eq_true].
Qed.

(** [matchPair] appends to what it is given, at most one match. *)
Lemma matchPair_app matches c r : matchPair matches c r = matches ++ matchPair [] c r.
Proof.
  unfold matchPair.
  repeat match goal with
    | |- context [if ?b then _ else _] => destruct b
    end; by rewrite ?app_nil_r.
Qed.

(** What [matchPair] appends: the first rule that fires decides. *)
Lemma matchPair_cases c r :
  (exactRule (ptrRom c) (ptrRom r)
   /\ matchPair [] c r
      = [mkMatch (Some c) (Some r) MatchTypeExact
           (bool_decide (strings.ToLower (FileName (ptrRom c))
                         = strings.ToLower (ConfigName (ptrRom r))))])
  \/ (~ exactRule (ptrRom c) (ptrRom r) /\ alternateRule (ptrRom c) (ptrRom r)
      /\ matchPair [] c r = [mkMatch (Some c) (Some r) MatchTypeAlternate false])
  \/ (~ exactRule (ptrRom c) (ptrRom r) /\ ~ alternateRule (ptrRom c) (ptrRom r)
      /\ fuzzyRule (ptrRom c) (ptrRom r)
      /\ matchPair [] c r = [mkMatch (Some c) (Some r) MatchTypeFuzzy false])
  \/ (~ exactRule (ptrRom c) (ptrRom r) /\ ~ alternateRule (ptrRom c) (ptrRom r)
      /\ ~ fuzzyRule (ptrRom c) (ptrRom r) /\ matchPair [] c r = []).
Proof.
  unfold matchPair, exactRule, alternateRule.
  destruct (decide (Name (ptrRom c) = Name (ptrRom r))) as [He|He]; [by left |].
  right.
  destruct (existsb (fun a => bool_decide _) (AlternateNames (ptrRom r))) eqn:Ha.
  { apply existsb_name_true in Ha. by left. }
  right.
  assert (~ Name (ptrRom c) ∈ AlternateNames (ptrRom r)) as Hna.
  { intros Hin. apply existsb_name_true in Hin. congruence. }
  destruct (existsb (fun a => existsb _ _) (AlternateNames (ptrRom r))) eqn:Hf.
  { apply existsb_fuzzy_true in Hf. by left. }
  right. repeat split; try assumption.
  intros Hin. apply existsb_fuzzy_true in Hin. congruence.
Qed.

(** The first loop of [matchRomSets], as the list of what it appends. *)
Definition positiveMatches (configFiles romSet : list RomPtr) : list Match :=
  flat_map (fun c => flat_map (fun r => matchPair [] c r) romSet) configFiles.

Lemma matchLoop_eq c romSet : forall matches,
  fold_left (fun matches r => matchPair matches c r) romSet matches
  = matches ++ flat_map (fun r => matchPair [] c r) romSet.
Proof.
  induction romSet as [|r romSet IH]; intros matches; simpl.
  - by rewrite app_nil_r.
  - rewrite IH, matchPair_app, <- app_assoc. reflexivity.
Qed.

Lemma configLoop_eq configFiles romSet : forall matches,
  fold_left (fun matches c =>
               fold_left (fun matches r => matchPair matches c r) romSet matches)
    configFiles matches
  = matches ++ positiveMatches configFiles romSet.
Proof.
  induction configFiles as [|c configFiles IH]; intros matches; simpl.
  - by rewrite app_nil_r.
  - rewrite IH, matchLoop_eq, <- app_assoc. reflexivity.
Qed.

(** A no-match record never counts as a match of a pointer. *)
Lemma existsb_positive_none side p matches (nones : list Match) :
  Forall (fun m => matchKind m = MatchTypeNone) nones ->
  existsb (positiveFor side p) (matches ++ nones) = existsb (positiveFor side p) matches.
Proof.
  intros Hn. rewrite existsb_app.
  assert (existsb (positiveFor side p) nones = false) as ->; [|apply orb_false_r].
  induction Hn as [|m nones Hm _ IH]; [reflexivity |].
  simpl. rewrite IH. unfold positiveFor. rewrite Hm.
  rewrite bool_decide_eq_true_2 by reflexivity. simpl.
  by rewrite andb_false_r.
Qed.

Lemma noMatchLoop_eq side (mk : RomPtr -> Match) (ptrs : list RomPtr) matches :
  (forall p, matchKind (mk p) = MatchTypeNone) ->
  forall nones, Forall (fun m => matchKind m = MatchTypeNone) nones ->
  fold_left (fun acc p =>
               if existsb (positiveFor side p) acc then acc else acc ++ [mk p])
    ptrs (matches ++ nones)
  = matches ++ nones
    ++ map mk (List.filter (fun p => negb (existsb (positiveFor side p) matches)) ptrs).
Proof.
  intros Hmk. induction ptrs as [|p ptrs IH]; intros nones Hn; simpl.
  - by rewrite app_nil_r.
  - rewrite existsb_positive_none by assumption.
    destruct (existsb (positiveFor side p) matches); simpl.
    + by apply IH.
    + rewrite <- app_assoc, IH.
      * by rewrite <- app_assoc.
      * apply Forall_app. split; [assumption | by constructor].
Qed.

(** [matchRomSets] gives the positive matches, config file by config file
    and ROM by ROM, then a no-match record for every ROM no positive match
    points to, then one for every such config file. *)
Lemma matchRomSets_eq configFiles romSet :
  matchRomSets configFiles romSet
  = positiveMatches configFiles romSet
    ++ map noMatchForRom
         (List.filter
            (fun r => negb (existsb (positiveFor rom r) (positiveMatches configFiles romSet)))
            romSet)
    ++ map noMatchForConfig
         (List.filter
            (fun c => negb (existsb (positiveFor configFile c)
                              (positiveMatches configFiles romSet)))
            configFiles).
Proof.
  unfold matchRomSets. rewrite configLoop_eq. simpl app.
  pose proof (noMatchLoop_eq rom noMatchForRom romSet
                (positiveMatches configFiles romSet) (fun _ => eq_refl) [] (Forall_nil_2 _))
    as H1.
  rewrite app_nil_r in H1. simpl app in H1.
  unfold noMatchForRom in H1. rewrite H1.
  pose proof (noMatchLoop_eq configFile noMatchForConfig configFiles
                (positiveMatches configFiles romSet) (fun _ => eq_refl)) as H2.
  unfold noMatchForConfig in H2. rewrite H2; [reflexivity |].
  apply Forall_map, Forall_forall. reflexivity.
Qed.

End Matcher.

Section OneMatchPerPair.

Lemma ptrEq_true a b : ptrEq a b = true <-> ptrAddr a = ptrAddr b.
Proof. apply Nat.eqb_eq. Qed.

Lemma ptrEq_refl a : ptrEq a a = true.
Proof. by apply ptrEq_true. Qed.

Lemma addr_elem (x : RomPtr) l : x ∈ l -> ptrAddr x ∈ map ptrAddr l.
Proof. intros Hx. apply list_elem_of_In, in_map. by apply list_elem_of_In. Qed.

(** Among pointers with pairwise different addresses, a pointer is told
    from all others by [ptrEq]. *)
Lemma filter_ptrEq l : forall x,
  NoDup (map ptrAddr l) -> x ∈ l -> List.filter (fun y => ptrEq y x) l = [x].
Proof.
  induction l as [|y l IH]; intros x Hnd Hx; [by apply elem_of_nil in Hx |].
  simpl in Hnd. apply NoDup_cons in Hnd as [Hy Hnd].
  assert (forall z, ptrAddr z = ptrAddr y -> List.filter (fun y => ptrEq y z) l = []) as Hnone.
  { intros z Hz. clear IH Hx Hnd. induction l as [|w l IHl]; [reflexivity |].
    simpl. destruct (ptrEq w z) eqn:E.
    - apply ptrEq_true in E. exfalso. apply Hy. rewrite <- Hz, <- E. simpl. left.
    - apply IHl. intros Hin. apply Hy. simpl. by right. }
  apply elem_of_cons in Hx as [->|Hx]; simpl.
  - rewrite ptrEq_refl. f_equal. by apply Hnone.
  - destruct (ptrEq y x) eqn:E.
    + apply ptrEq_true in E. exfalso. apply Hy. rewrite E. by apply addr_elem.
    + by apply IH.
Qed.

Lemma pairMatches_matchPair c r c' r' :
  pairMatches c r (matchPair [] c' r')
  = if ptrEq c' c && ptrEq r' r then matchPair [] c' r' else [].
Proof.
  unfold pairMatches.
  destruct (matchPair_cases c' r') as [[_ ->]|[(_ & _ & ->)|[(_ & _ & _ & ->)|(_ & _ & _ & ->)]]];
    simpl; by destruct (ptrEq c' c && ptrEq r' r).
Qed.

Lemma pairMatches_app c r l k :
  pairMatches c r (l ++ k) = pairMatches c r l ++ pairMatches c r k.
Proof. apply List.filter_app. Qed.

Lemma pairMatches_romLoop c r c' romSet :
  pairMatches c r (flat_map (fun r' => matchPair [] c' r') romSet)
  = if ptrEq c' c
    then flat_map (fun r' => matchPair [] c' r') (List.filter (fun r' => ptrEq r' r) romSet)
    else [].
Proof.
  induction romSet as [|r' romSet IH]; simpl.
  - by destruct (ptrEq c' c).
  - rewrite pairMatches_app, IH, pairMatches_matchPair.
    destruct (ptrEq c' c), (ptrEq r' r); simpl; reflexivity.
Qed.

Lemma pairMatches_positive c r configFiles romSet :
  pairMatches c r (positiveMatches configFiles romSet)
  = flat_map
      (fun c' => flat_map (fun r' => matchPair [] c' r')
                   (List.filter (fun r' => ptrEq r' r) romSet))
      (List.filter (fun c' => ptrEq c' c) configFiles).
Proof.
  unfold positiveMatches. induction configFiles as [|c' configFiles IH]; simpl.
  - reflexivity.
  - rewrite pairMatches_app, IH, pairMatches_romLoop.
    by destruct (ptrEq c' c).
Qed.

Lemma pairMatches_none_rom c r l : pairMatches c r (map noMatchForRom l) = [].
Proof. induction l; [reflexivity | assumption]. Qed.

Lemma pairMatches_none_config c r l : pairMatches c r (map noMatchForConfig l) = [].
Proof.
  induction l as [|x l IH]; [reflexivity |].
  simpl. unfold pairMatches in *. simpl. by rewrite andb_false_r.
Qed.

(** With pairwise different pointers, the matches of a pair are what the
    loop body appended for the pair. *)
Lemma pairMatches_matchRomSets configFiles romSet c r :
  NoDup (map ptrAddr configFiles) -> NoDup (map ptrAddr romSet) ->
  c ∈ configFiles -> r ∈ romSet ->
  pairMatches c r (matchRomSets configFiles romSet) = matchPair [] c r.
Proof.
  intros Hc Hr Hic Hir.
  rewrite matchRomSets_eq, !pairMatches_app, pairMatches_none_rom,
    pairMatches_none_config, pairMatches_positive, !app_nil_r.
  rewrite (filter_ptrEq _ _ Hc Hic), (filter_ptrEq _ _ Hr Hir).
  simpl. by rewrite !app_nil_r.
Qed.

End OneMatchPerPair.

(** C1 as stated does not hold: a config file is matched against every ROM
    in turn, and here one config file gets an exact match with the first
    ROM and an alternate match with the second as well. *)
Lemma two_matches_for_one_config :
  let c := mkPtr 0 (NewRom "AeroFighters Assault (USA).cfg") in
  let r1 := mkPtr 1 (NewRom "AeroFighters Assault (U).n64") in
  let r2 := mkPtr 2 (NewRom "AeroFighter's Assault (U).n64") in
  List.filter (positiveFor configFile c) (matchRomSets [c] [r1; r2])
  = [ mkMatch (Some c) (Some r1) MatchTypeExact false;
      mkMatch (Some c) (Some r2) MatchTypeAlternate false ].
Proof. vm_compute. reflexivity. Qed.

(** C1, amended: for every config file and every ROM (the pointers being
    pairwise different, as [PatchDirectory] makes them), [matchRomSets]
    records at most one match of the two, of the first rule that fires for
    that pair (exact, then alternate, then fuzzy), and it records one
    whenever a rule fires; it then goes on to the next ROM, so that a config
    file has one match with every ROM a rule fires for. *)
Theorem matchRomSets_one_match_per_pair (configFiles romSet : list RomPtr) (c r : RomPtr) :
  NoDup (map ptrAddr configFiles) -> NoDup (map ptrAddr romSet) ->
  c ∈ configFiles -> r ∈ romSet ->
  (length (pairMatches c r (matchRomSets configFiles romSet)) <= 1)%nat
  /\ (forall m, m ∈ pairMatches c r (matchRomSets configFiles romSet) ->
        configFile m = Some c /\ rom m = Some r
        /\ match matchKind m with
           | MatchTypeExact => exactRule (ptrRom c) (ptrRom r)
           | MatchTypeAlternate =>
               ~ exactRule (ptrRom c) (ptrRom r) /\ alternateRule (ptrRom c) (ptrRom r)
           | MatchTypeFuzzy =>
               ~ exactRule (ptrRom c) (ptrRom r) /\ ~ alternateRule (ptrRom c) (ptrRom r)
               /\ fuzzyRule (ptrRom c) (ptrRom r)
           | MatchTypeNone => False
           end)
  /\ (exactRule (ptrRom c) (ptrRom r) \/ alternateRule (ptrRom c) (ptrRom r)
      \/ fuzzyRule (ptrRom c) (ptrRom r) ->
      length (pairMatches c r (matchRomSets configFiles romSet)) = 1%nat).
Proof.
  intros Hc Hr Hic Hir.
  rewrite (pairMatches_matchRomSets _ _ _ _ Hc Hr Hic Hir).
  destruct (matchPair_cases c r)
    as [[He ->]|[(He & Ha & ->)|[(He & Ha & Hf & ->)|(He & Ha & Hf & ->)]]];
    (split; [simpl; lia |]); split.
  all: try (intros m Hm; apply list_elem_of_singleton in Hm as ->; simpl; tauto).
  all: try (intros _; reflexivity).
  - intros m Hm. by apply elem_of_nil in Hm.
  - tauto.
Qed.

Lemma matchRomSets_one_match_per_pair_tetris :
  let c := mkPtr 0 (NewRom "New Tetris, The (USA).cfg") in
  let r := mkPtr 1 (NewRom "The New Tetris (USA).n64") in
  pairMatches c r (matchRomSets [c] [r])
  = [mkMatch (Some c) (Some r) MatchTypeAlternate false]
  /\ length (pairMatches c r (matchRomSets [c] [r])) = 1%nat.
Proof.
  split; [vm_compute; reflexivity |].
  apply (matchRomSets_one_match_per_pair
           [mkPtr 0 (NewRom "New Tetris, The (USA).cfg")]
           [mkPtr 1 (NewRom "The New Tetris (USA).n64")]).
  - apply (bool_decide_unpack _). vm_compute. exact I.
  - apply (bool_decide_unpack _). vm_compute. exact I.
  - left.
  - left.
  - right. left. unfold alternateRule.
    apply (bool_decide_unpack _). vm_compute. exact I.
Defined.

(** ** The patch loop *)

(** The target file name of a match and the copy it may cause. *)
Definition targetOf (m : Match) : gostring := ConfigName (deref (rom m)).

Definition copyOf (configDirPath : gostring) (m : Match) : Event :=
  EvCopy configDirPath (FileName (deref (configFile m))) (targetOf m).

(** A match the loop acts on, unless the target turns out to exist. *)
Definition eligible (matchFlag : matchType) (m : Match) : bool :=
  negb (bool_decide (matchKind m = MatchTypeNone))
  && negb (isExisting m) && shouldInclude (matchKind m) matchFlag.

(** The log of a run: the data of its last request, the [os.WriteFile]. *)
Definition runLog {M} (r : Run M) : option gostring :=
  match last (runEvents r) with
  | Some (EvWriteFile _ _ data) => Some data
  | _ => None
  end.

Section PatchLoop.
Context {M : Type} `{FileMangerInterface M}.
Variables (configDirPath : gostring) (matchFlag : matchType).

(** One round of the loop, by cases. *)
Lemma patchStep_cases commit st m :
  (eligible matchFlag m = false
   /\ patchStep commit configDirPath matchFlag st m
      = mkState (stManager st) (stMatches st ++ [m]) (stEvents st))
  \/ (eligible matchFlag m = true
      /\ FileExists (stManager st) configDirPath (targetOf m) = true
      /\ patchStep commit configDirPath matchFlag st m
         = mkState (stManager st)
             (stMatches st ++ [mkMatch (configFile m) (rom m) (matchKind m) true])
             (stEvents st))
  \/ (eligible matchFlag m = true
      /\ FileExists (stManager st) configDirPath (targetOf m) = false
      /\ patchStep commit configDirPath matchFlag st m
         = if commit then
             mkState
               (CopyFileWithName (stManager st) configDirPath
                  (FileName (deref (configFile m))) (targetOf m)).1
               (stMatches st ++ [m])
               (stEvents st ++ [copyOf configDirPath m])
           else mkState (stManager st) (stMatches st ++ [m]) (stEvents st)).
Proof.
  unfold patchStep, eligible, targetOf, copyOf.
  destruct (bool_decide (matchKind m = MatchTypeNone)); simpl; [by left |].
  destruct (isExisting m); simpl; [by left |].
  destruct (shouldInclude (matchKind m) matchFlag); simpl; [|by left].
  right.
  destruct (FileExists (stManager st) configDirPath (ConfigName (deref (rom m))));
    [left | right]; by destruct commit.
Qed.

(** A dry run leaves the file manager alone and requests nothing. *)
Lemma patchLoop_dry matches : forall st,
  stManager (fold_left (patchStep false configDirPath matchFlag) matches st)
  = stManager st
  /\ stEvents (fold_left (patchStep false configDirPath matchFlag) matches st)
     = stEvents st.
Proof.
  induction matches as [|m matches IH]; intros st; simpl; [done |].
  destruct (IH (patchStep false configDirPath matchFlag st m)) as [-> ->].
  destruct (patchStep_cases false st m) as [[_ ->]|[(_ & _ & ->)|(_ & _ & ->)]]; done.
Qed.

(** Every request of the loop is the copy of an eligible match whose target
    the file manager did not report. *)
Lemma patchLoop_events commit matches : forall st e,
  e ∈ stEvents (fold_left (patchStep commit configDirPath matchFlag) matches st) ->
  e ∈ stEvents st
  \/ exists m, m ∈ matches /\ eligible matchFlag m = true /\ e = copyOf configDirPath m.
Proof.
  induction matches as [|m matches IH]; intros st e; simpl; [by left |].
  intros He. apply IH in He as [He|(m' & Hm' & Hel & ->)].
  - destruct (patchStep_cases commit st m) as [[_ Hs]|[(_ & _ & Hs)|(Hel & _ & Hs)]];
      rewrite Hs in He; try by left.
    destruct commit; simpl in He; [|by left].
    apply elem_of_app in He as [He|He]; [by left |].
    apply list_elem_of_singleton in He as ->.
    right. exists m. split; [left | done].
  - right. exists m'. split; [by right | done].
Qed.

(** The loop visits the matches in order and changes nothing of a match
    but, possibly, its [isExisting] flag from false to true. *)
Lemma patchLoop_matches commit matches : forall st,
  exists visited,
    stMatches (fold_left (patchStep commit configDirPath matchFlag) matches st)
    = stMatches st ++ visited
    /\ Forall2 (fun m m' => configFile m' = configFile m /\ rom m' = rom m
                            /\ matchKind m' = matchKind m
                            /\ (isExisting m = true -> isExisting m' = true)
                            /\ (matchKind m = MatchTypeNone -> m' = m))
         matches visited.
Proof.
  induction matches as [|m matches IH]; intros st; simpl.
  - exists []. by rewrite app_nil_r.
  - destruct (IH (patchStep commit configDirPath matchFlag st m)) as (visited & -> & HF).
    destruct (patchStep_cases commit st m) as [[_ ->]|[(Hel & _ & ->)|(_ & _ & ->)]].
    + exists (m :: visited). simpl. rewrite <- app_assoc. split; [done |].
      constructor; [tauto | done].
    + exists (mkMatch (configFile m) (rom m) (matchKind m) true :: visited).
      simpl. rewrite <- app_assoc. split; [done |].
      constructor; [|done]. simpl. repeat split; try done.
      intros Hn. unfold eligible in Hel. rewrite Hn in Hel.
      rewrite bool_decide_eq_true_2 in Hel by done. discriminate.
    + exists (m :: visited).
      destruct commit; simpl; rewrite <- app_assoc; (split; [done |]);
        (constructor; [tauto | done]).
Qed.

End PatchLoop.

(** C2 as stated does not hold: a dry run over two listed directories
    writes its log file into the config directory. *)
Lemma dry_run_writes_log :
  runEvents
    (PatchDirectory
       (NewPatcher (stubWith ["AeroFighters Assault (USA).n64" : gostring]
                      ["AeroFighters Assault (USA).cfg" : gostring]) false)
       bezelDirectoryPath romDirectoryPath MatchTypeFuzzy 1700000000)
  = [EvWriteFile bezelDirectoryPath "patch-log.1700000000.log"
       "[DRY]

Found 1 config files in: C:\Retroarch\config\Mupen
Found 1 roms in: C:\Games\N64

Missing ROMs: 0
Missing config: 0

Created 0 new files
Skipped 0 new files

"].
Proof. vm_compute. reflexivity. Qed.

(** C2, amended: when the commit flag is false, [PatchDirectory] requests no
    file copy and leaves the file manager as it was; the one thing it writes
    is its log file, into the config directory, whenever both directories
    could be listed. *)
Theorem dry_run_only_writes_log {M : Type} `{FileMangerInterface M}
    (fm : M) (configDirPath romDirPath : gostring) (matchFlag : matchType) (now : Z) :
  let run := PatchDirectory (NewPatcher fm false) configDirPath romDirPath matchFlag now in
  runManager run = fm
  /\ Forall (fun e => isCopy e = false) (runEvents run)
  /\ match runError run with
     | Some _ => runEvents run = []
     | None =>
         exists log,
           runEvents run
           = [EvWriteFile configDirPath ("patch-log." ++ fmt.formatInt now ++ ".log") log]
     end.
Proof.
  unfold PatchDirectory, NewPatcher. cbn [fileManager commit].
  destruct (GetDirectoryContents fm configDirPath) as [configDirFiles|e]; [|by repeat split].
  destruct (GetDirectoryContents fm romDirPath) as [romDirFiles|e]; [|by repeat split].
  cbv zeta. cbn [runManager runEvents runError].
  match goal with
  | |- context [fold_left ?f ?ms ?st] =>
      destruct (patchLoop_dry configDirPath matchFlag ms st) as [-> ->]
  end.
  cbn [stManager stEvents app]. unfold produceLog, writeLogToFile.
  split; [done |]. split; [by repeat constructor | by eexists].
Qed.

(** ** File managers whose copies only add files *)

(** What the patch loop relies on when it re-checks a target: a copy makes
    no other file name appear or disappear, and no file disappears. *)
Class CopyOnlyAdds (M : Type) `{FileMangerInterface M} : Prop := {
  copy_other_name :
    forall (m : M) (d src new d' f : gostring),
      f <> new ->
      FileExists (CopyFileWithName m d src new).1 d' f = FileExists m d' f;
  copy_keeps_files :
    forall (m : M) (d src new d' f : gostring),
      FileExists m d' f = true ->
      FileExists (CopyFileWithName m d src new).1 d' f = true
}.

Lemma stubFileExists_copy m d src new d' f :
  stubFileExists (stubCopyFileWithName m d src new).1 d' f
  = stubFileExists m d' f
    || (bool_decide (d' = d) && bool_decide (new = f)
        && bool_decide ((stubCopyFileWithName m d src new).2 = None)).
Proof.
  unfold stubCopyFileWithName, stubGetDirectoryContents, stubFileExists.
  destruct (directories m !! d) as [contents|] eqn:Hd; simpl.
  - destruct (inSlice src contents); simpl.
    + destruct (decide (d' = d)) as [->|Hne].
      * rewrite lookup_insert_eq, Hd, existsb_app. simpl.
        rewrite (bool_decide_eq_true_2 (d = d)) by done.
        by rewrite orb_false_r, andb_true_r.
      * rewrite lookup_insert_ne by done.
        rewrite (bool_decide_eq_false_2 (d' = d)) by done.
        by rewrite orb_false_r.
    + by rewrite andb_false_r, orb_false_r.
  - by rewrite andb_false_r, orb_false_r.
Qed.

#[global] Instance stub_copy_only_adds : CopyOnlyAdds stubFileManager.
Proof.
  split; intros m d src new d' f Hf;
    cbn [FileExists CopyFileWithName stub_manager] in *;
    rewrite stubFileExists_copy.
  - rewrite (bool_decide_eq_false_2 (new = f)) by congruence.
    by rewrite andb_false_r, orb_false_r.
  - by rewrite Hf.
Qed.

(** The stub reports the files of a listing. *)
Lemma stubFileExists_listed m d files f :
  stubGetDirectoryContents m d = Ok files -> f ∈ files -> stubFileExists m d f = true.
Proof.
  unfold stubGetDirectoryContents, stubFileExists.
  destruct (directories m !! d) as [l|]; [|discriminate].
  intros [= ->] Hf. apply existsb_exists. exists f.
  split; [by apply list_elem_of_In | by apply bool_decide_eq_true].
Qed.

(** ** Dry run and committing run *)

(** The dry-run marker is the one place where the text depends on the commit
    flag. *)
Lemma logText_dry romCount configCount romDirPath configPath matches matchFlag :
  logText false romCount configCount romDirPath configPath matches matchFlag
  = "[DRY]" ++ ["010"%char; "010"%char]
    ++ logText true romCount configCount romDirPath configPath matches matchFlag.
Proof.
  unfold logText. cbv zeta. cbn [negb]. rewrite <- !app_assoc. reflexivity.
Qed.

(** The matches the loop would copy for, going by their final flags. *)
Definition wouldCopy (matchFlag : matchType) (ms : list Match) : list Match :=
  List.filter (eligible matchFlag) ms.

Lemma wouldCopy_snoc_no matchFlag l m :
  eligible matchFlag m = false -> wouldCopy matchFlag (l ++ [m]) = wouldCopy matchFlag l.
Proof.
  intros Hm. unfold wouldCopy. rewrite List.filter_app. simpl.
  by rewrite Hm, app_nil_r.
Qed.

Lemma wouldCopy_snoc_yes matchFlag l m :
  eligible matchFlag m = true ->
  wouldCopy matchFlag (l ++ [m]) = wouldCopy matchFlag l ++ [m].
Proof.
  intros Hm. unfold wouldCopy. rewrite List.filter_app. simpl. by rewrite Hm.
Qed.

Lemma eligible_existing matchFlag c r k : eligible matchFlag (mkMatch c r k true) = false.
Proof. unfold eligible. simpl. by rewrite andb_false_r. Qed.

Lemma eligible_none matchFlag m :
  matchKind m = MatchTypeNone -> eligible matchFlag m = false.
Proof. intros Hk. unfold eligible. by rewrite Hk. Qed.

Section Lockstep.
Context {M : Type} `{CopyOnlyAdds M}.
Variables (fm : M) (configDirPath : gostring) (matchFlag : matchType).

(** The dry loop and the committing loop side by side.  While the matches
    the dry loop leaves eligible have pairwise different targets, both loops
    take the same decisions: the committing loop copies exactly those
    matches. *)
Lemma patchLoop_lockstep matches : forall sd sc,
  stManager sd = fm ->
  stMatches sc = stMatches sd ->
  stEvents sc = map (copyOf configDirPath) (wouldCopy matchFlag (stMatches sd)) ->
  (forall m, m ∈ wouldCopy matchFlag (stMatches sd) ->
             FileExists fm configDirPath (targetOf m) = false) ->
  (forall t, t ∉ map targetOf (wouldCopy matchFlag (stMatches sd)) ->
             FileExists (stManager sc) configDirPath t = FileExists fm configDirPath t) ->
  NoDup (map targetOf
           (wouldCopy matchFlag
              (stMatches (fold_left (patchStep false configDirPath matchFlag) matches sd)))) ->
  stMatches (fold_left (patchStep true configDirPath matchFlag) matches sc)
  = stMatches (fold_left (patchStep false configDirPath matchFlag) matches sd)
  /\ stEvents (fold_left (patchStep true configDirPath matchFlag) matches sc)
     = map (copyOf configDirPath)
         (wouldCopy matchFlag
            (stMatches (fold_left (patchStep false configDirPath matchFlag) matches sd))).
Proof.
  induction matches as [|m matches IH]; intros sd sc Hfm Hms Hev Hno Hsame Hnd;
    simpl in *; [done |].
  destruct (patchLoop_matches configDirPath matchFlag false matches
              (patchStep false configDirPath matchFlag sd m)) as (rest & Hrest & _).
  destruct (patchStep_cases configDirPath matchFlag false sd m)
    as [[Hel Hd]|[(Hel & Hex & Hd)|(Hel & Hex & Hd)]];
    destruct (patchStep_cases configDirPath matchFlag true sc m)
      as [[Hel' Hc]|[(Hel' & Hex' & Hc)|(Hel' & Hex' & Hc)]];
    try congruence; rewrite Hfm in Hex || idtac.
  - (* not eligible: both loops keep the match *)
    apply IH; [by rewrite Hd | by rewrite Hd, Hc; simpl; rewrite Hms | ..|done];
      rewrite Hd; rewrite ?Hc; simpl; rewrite wouldCopy_snoc_no by done; done.
  - (* the target exists for both *)
    apply IH; [by rewrite Hd | by rewrite Hd, Hc; simpl; rewrite Hms | ..|done];
      rewrite Hd; rewrite ?Hc; simpl;
      rewrite wouldCopy_snoc_no by apply eligible_existing; done.
  - (* it exists at the start but not for the committing loop: impossible *)
    exfalso.
    destruct (decide (targetOf m ∈ map targetOf (wouldCopy matchFlag (stMatches sd))))
      as [Hin|Hin].
    + apply list_elem_of_In, in_map_iff in Hin as (m0 & Ht & Hm0).
      apply list_elem_of_In, Hno in Hm0. congruence.
    + apply Hsame in Hin. congruence.
  - (* it exists for the committing loop only: an earlier copy made it, and
       the dry loop leaves two eligible matches with this target *)
    exfalso.
    destruct (decide (targetOf m ∈ map targetOf (wouldCopy matchFlag (stMatches sd))))
      as [Hin|Hin].
    + rewrite Hrest, Hd in Hnd. simpl in Hnd.
      unfold wouldCopy in Hnd. rewrite !List.filter_app, !map_app in Hnd.
      apply NoDup_app in Hnd as ([_ [Hdisj _]]%NoDup_app & _ & _).
      apply (Hdisj _ Hin). simpl. rewrite Hel. simpl. left.
    + apply Hsame in Hin. congruence.
  - (* the target exists for neither: the committing loop copies *)
    apply IH; [by rewrite Hd | by rewrite Hd, Hc; simpl; rewrite Hms | ..|done];
      rewrite Hd; rewrite ?Hc; simpl; rewrite wouldCopy_snoc_yes by done.
    + by rewrite map_app, Hev.
    + intros m0 [Hm0|Hm0]%elem_of_app; [by apply Hno |].
      by apply list_elem_of_singleton in Hm0 as ->.
    + rewrite map_app. simpl. intros t Ht.
      rewrite copy_other_name.
      * apply Hsame. intros Hin. apply Ht, elem_of_app. by left.
      * intros ->. apply Ht, elem_of_app. right. left.
Qed.

End Lockstep.

Lemma filter_isCopy_copies configDirPath ms :
  List.filter isCopy (map (copyOf configDirPath) ms) = map (copyOf configDirPath) ms.
Proof. induction ms as [|m ms IH]; [done |]. simpl. by rewrite IH. Qed.

(** C3 as stated does not hold: the report of a dry run is not the report
    of the committing run, it begins with a marker line of its own. *)
Lemma dry_report_differs :
  let fm := stubWith ["AeroFighters Assault (USA).n64" : gostring]
              ["AeroFighters Assault (USA).cfg" : gostring] in
  let dry := PatchDirectory (NewPatcher fm false) bezelDirectoryPath romDirectoryPath
               MatchTypeFuzzy 0 in
  let com := PatchDirectory (NewPatcher fm true) bezelDirectoryPath romDirectoryPath
               MatchTypeFuzzy 0 in
  runLog com
  = Some (list_ascii_of_string "Found 1 config files in: C:\Retroarch\config\Mupen
Found 1 roms in: C:\Games\N64

Missing ROMs: 0
Missing config: 0

Created 0 new files
Skipped 0 new files

")
  /\ runLog dry
     = Some (list_ascii_of_string "[DRY]

Found 1 config files in: C:\Retroarch\config\Mupen
Found 1 roms in: C:\Games\N64

Missing ROMs: 0
Missing config: 0

Created 0 new files
Skipped 0 new files

")
  /\ runLog dry <> runLog com.
Proof. vm_compute. repeat split. discriminate. Qed.

(** Where two eligible matches share a target the two reports differ in
    their counts as well: the committing run finds the target in place at
    the second match, the dry run lists both. *)
Lemma dry_run_lists_shared_target_twice :
  let fm := stubWith ["Indy Racing 2000 (U).v64" : gostring; "Indy Racing 2000 (U).n64" : gostring]
              ["Indy Racing 2000 (USA).cfg" : gostring] in
  let dry := PatchDirectory (NewPatcher fm false) bezelDirectoryPath romDirectoryPath
               MatchTypeFuzzy 0 in
  let com := PatchDirectory (NewPatcher fm true) bezelDirectoryPath romDirectoryPath
               MatchTypeFuzzy 0 in
  map isExisting (runMatches dry) = [false; false]
  /\ map isExisting (runMatches com) = [false; true]
  /\ List.filter isCopy (runEvents com)
     = [EvCopy bezelDirectoryPath "Indy Racing 2000 (USA).cfg" "Indy Racing 2000 (U).cfg"].
Proof. vm_compute. done. Qed.

(** C3, amended: for the same file manager state, directories and match
    flag, the dry run issues no copy request; and when no two of the matches
    it leaves eligible for copying share a target file name, the committing
    run ends with the same match records, copies exactly those matches, and
    the report of the dry run is the report of the committing run preceded
    by the "[DRY]" marker and an empty line. *)
Theorem dry_run_previews_commit {M : Type} `{CopyOnlyAdds M}
    (fm : M) (configDirPath romDirPath : gostring) (matchFlag : matchType) (now : Z) :
  let dry := PatchDirectory (NewPatcher fm false) configDirPath romDirPath matchFlag now in
  let com := PatchDirectory (NewPatcher fm true) configDirPath romDirPath matchFlag now in
  NoDup (map targetOf (wouldCopy matchFlag (runMatches dry))) ->
  Forall (fun e => isCopy e = false) (runEvents dry)
  /\ runMatches com = runMatches dry
  /\ List.filter isCopy (runEvents com)
     = map (copyOf configDirPath) (wouldCopy matchFlag (runMatches dry))
  /\ runLog dry
     = (fun log => "[DRY]" ++ ["010"%char; "010"%char] ++ log) <$> runLog com.
Proof.
  intros dry com.
  pose proof (dry_run_only_writes_log fm configDirPath romDirPath matchFlag now)
    as (_ & Hnocopy & _).
  fold dry in Hnocopy. intros Hnd. split; [done |]. clear Hnocopy.
  subst dry com. revert Hnd.
  unfold PatchDirectory, NewPatcher, runLog. cbn [fileManager commit].
  destruct (GetDirectoryContents fm configDirPath) as [configDirFiles|e]; [|done].
  destruct (GetDirectoryContents fm romDirPath) as [romDirFiles|e]; [|done].
  cbv zeta. cbn [runManager runEvents runError runMatches].
  set (ms := matchRomSets _ _). intros Hnd.
  destruct (patchLoop_lockstep fm configDirPath matchFlag ms
              (mkState fm [] []) (mkState fm [] [])) as [Hm He]; try done.
  { intros m Hin. by apply elem_of_nil in Hin. }
  destruct (patchLoop_dry configDirPath matchFlag ms (mkState fm [] [])) as [_ Hd].
  rewrite Hd, Hm, He. cbn [stEvents app]. unfold produceLog, writeLogToFile.
  split; [done |]. split.
  - rewrite List.filter_app, filter_isCopy_copies. simpl. by rewrite app_nil_r.
  - rewrite last_snoc. simpl. by rewrite logText_dry.
Qed.

Lemma dry_run_previews_tetris :
  let fm := stubWith ["The New Tetris (USA).n64" : gostring]
              ["New Tetris, The (USA).cfg" : gostring] in
  let dry := PatchDirectory (NewPatcher fm false) bezelDirectoryPath romDirectoryPath
               MatchTypeFuzzy 0 in
  let com := PatchDirectory (NewPatcher fm true) bezelDirectoryPath romDirectoryPath
               MatchTypeFuzzy 0 in
  NoDup (map targetOf (wouldCopy MatchTypeFuzzy (runMatches dry)))
  /\ List.filter isCopy (runEvents com)
     = map (copyOf bezelDirectoryPath) (wouldCopy MatchTypeFuzzy (runMatches dry)).
Proof.
  assert (NoDup (map targetOf (wouldCopy MatchTypeFuzzy (runMatches
            (PatchDirectory
               (NewPatcher (stubWith ["The New Tetris (USA).n64" : gostring]
                              ["New Tetris, The (USA).cfg" : gostring]) false)
               bezelDirectoryPath romDirectoryPath MatchTypeFuzzy 0))))) as Hnd.
  { apply (bool_decide_unpack _). vm_compute. exact I. }
  split; [exact Hnd |].
  apply (dry_run_previews_commit
           (stubWith ["The New Tetris (USA).n64" : gostring]
              ["New Tetris, The (USA).cfg" : gostring])
           bezelDirectoryPath romDirectoryPath MatchTypeFuzzy 0 Hnd).
Defined.

(** ** The identities [PatchDirectory] builds *)
Section Identities.

Lemma newRoms_elem items : forall base p,
  p ∈ newRoms base items
  <-> exists j f, items !! j = Some f /\ p = mkPtr (base + j) (NewRom f).
Proof.
  induction items as [|item items IH]; intros base p; simpl.
  - rewrite elem_of_nil. split; [done | intros (j & f & Hj & _); by destruct j].
  - rewrite elem_of_cons, IH. split.
    + intros [->|(j & f & Hj & ->)].
      * exists 0%nat, item. split; [done | by rewrite Nat.add_0_r].
      * exists (S j), f. split; [done | f_equal; lia].
    + intros ([|j] & f & Hj & ->); simpl in Hj.
      * left. injection Hj as ->. by rewrite Nat.add_0_r.
      * right. exists j, f. split; [done | f_equal; lia].
Qed.

Lemma newRoms_addrs items : forall base,
  map ptrAddr (newRoms base items) = seq base (length items).
Proof.
  induction items as [|item items IH]; intros base; simpl; [done |].
  by rewrite IH.
Qed.

(** The pointers of one allocation are pairwise different. *)
Lemma newRoms_NoDup base items : NoDup (map ptrAddr (newRoms base items)).
Proof. rewrite newRoms_addrs. apply NoDup_seq. Qed.

Lemma newRoms_fileName base items p :
  p ∈ newRoms base items ->
  FileName (ptrRom p) ∈ items /\ ptrRom p = NewRom (FileName (ptrRom p)).
Proof.
  intros (j & f & Hj & ->)%newRoms_elem. simpl.
  split; [by eapply list_elem_of_lookup_2 | done].
Qed.

(** Among the pointers of one allocation, equal addresses mean the same
    pointer. *)
Lemma newRoms_same base items p q :
  p ∈ newRoms base items -> q ∈ newRoms base items ->
  ptrAddr p = ptrAddr q -> p = q.
Proof.
  intros (j & f & Hj & ->)%newRoms_elem (k & g & Hk & ->)%newRoms_elem. simpl.
  intros Ha. assert (j = k) as -> by lia. congruence.
Qed.

Lemma filterConfigs_elem configDirFiles f :
  f ∈ filterConfigs configDirFiles
  <-> f ∈ configDirFiles /\ filepath.Ext f = (".cfg" : gostring).
Proof.
  unfold filterConfigs. rewrite !list_elem_of_In, List.filter_In.
  by rewrite bool_decide_eq_true.
Qed.

Lemma matchPair_elem c r m :
  m ∈ matchPair [] c r ->
  configFile m = Some c /\ rom m = Some r /\ matchKind m <> MatchTypeNone
  /\ (isExisting m = true ->
      exactRule (ptrRom c) (ptrRom r)
      /\ strings.ToLower (FileName (ptrRom c)) = strings.ToLower (ConfigName (ptrRom r))).
Proof.
  destruct (matchPair_cases c r)
    as [[He ->]|[(He & Ha & ->)|[(He & Ha & Hf & ->)|(He & Ha & Hf & ->)]]];
    intros Hm; try (by apply elem_of_nil in Hm);
    apply list_elem_of_singleton in Hm as ->; simpl;
    (split; [done |]); (split; [done |]); (split; [done |]); try done.
  intros Hex. by apply bool_decide_eq_true in Hex.
Qed.

Lemma or_iff_both (A A' B B' : Prop) : (A <-> A') -> (B <-> B') -> (A \/ B <-> A' \/ B').
Proof. tauto. Qed.

(** Where a match of [matchRomSets] comes from. *)
Lemma matchRomSets_elem configFiles romSet m :
  m ∈ matchRomSets configFiles romSet
  <-> (exists c r, c ∈ configFiles /\ r ∈ romSet /\ m ∈ matchPair [] c r)
      \/ (exists r, r ∈ romSet /\ m = noMatchForRom r
          /\ existsb (positiveFor rom r) (positiveMatches configFiles romSet) = false)
      \/ (exists c, c ∈ configFiles /\ m = noMatchForConfig c
          /\ existsb (positiveFor configFile c) (positiveMatches configFiles romSet) = false).
Proof.
  rewrite matchRomSets_eq, !elem_of_app. unfold positiveMatches.
  rewrite !list_elem_of_In, in_flat_map, !in_map_iff.
  apply or_iff_both; [|apply or_iff_both].
  - split.
    + intros (c & Hc & (r & Hr & Hm)%in_flat_map). exists c, r.
      by rewrite !list_elem_of_In.
    + intros (c & r & Hc & Hr & Hm). exists c.
      split; [by apply list_elem_of_In |]. apply in_flat_map. exists r.
      by rewrite <- !list_elem_of_In.
  - split.
    + intros (r & <- & [Hr Hn]%List.filter_In). exists r.
      split; [by apply list_elem_of_In |]. split; [done |].
      by apply negb_true_iff in Hn.
    + intros (r & Hr & -> & Hn). exists r. split; [done |].
      apply List.filter_In. split; [by apply list_elem_of_In |].
      by apply negb_true_iff.
  - split.
    + intros (c & <- & [Hc Hn]%List.filter_In). exists c.
      split; [by apply list_elem_of_In |]. split; [done |].
      by apply negb_true_iff in Hn.
    + intros (c & Hc & -> & Hn). exists c. split; [done |].
      apply List.filter_In. split; [by apply list_elem_of_In |].
      by apply negb_true_iff.
Qed.

(** The matches [matchRomSets] builds have both sides when they are
    positive and one side when they are not: no nil pointer is ever
    dereferenced by [PatchDirectory] or [produceLog]. *)
Lemma matchRomSets_shape configFiles romSet m :
  m ∈ matchRomSets configFiles romSet ->
  if decide (matchKind m = MatchTypeNone)
  then is_Some (configFile m) \/ is_Some (rom m)
  else is_Some (configFile m) /\ is_Some (rom m).
Proof.
  intros [(c & r & _ & _ & Hm)|[(r & _ & -> & _)|(c & _ & -> & _)]]%matchRomSets_elem.
  - apply matchPair_elem in Hm as (-> & -> & Hk & _).
    destruct (decide _); [done | by split; eexists].
  - simpl. right. by eexists.
  - simpl. left. by eexists.
Qed.

Lemma Forall2_elem_l {A B} (R : A -> B -> Prop) l k x :
  Forall2 R l k -> x ∈ l -> exists y, y ∈ k /\ R x y.
Proof.
  induction 1 as [|a b l k Hab _ IH]; intros Hx; [by apply elem_of_nil in Hx |].
  apply elem_of_cons in Hx as [->|Hx].
  - exists b. split; [left | done].
  - destruct (IH Hx) as (y & Hy & HR). exists y. split; [by right | done].
Qed.

Lemma Forall2_elem_r {A B} (R : A -> B -> Prop) l k y :
  Forall2 R l k -> y ∈ k -> exists x, x ∈ l /\ R x y.
Proof.
  induction 1 as [|a b l k Hab _ IH]; intros Hy; [by apply elem_of_nil in Hy |].
  apply elem_of_cons in Hy as [->|Hy].
  - exists a. split; [left | done].
  - destruct (IH Hy) as (x & Hx & HR). exists x. split; [by right | done].
Qed.

End Identities.

(** A run whose two directories could be listed. *)
Lemma PatchDirectory_listed {M : Type} `{FileMangerInterface M}
    (fm : M) (c : bool) (configDirPath romDirPath : gostring)
    (matchFlag : matchType) (now : Z) (configDirFiles romDirFiles : list gostring) :
  GetDirectoryContents fm configDirPath = Ok configDirFiles ->
  GetDirectoryContents fm romDirPath = Ok romDirFiles ->
  let configFiles := newRoms 0 (filterConfigs configDirFiles) in
  let roms := newRoms (length (filterConfigs configDirFiles)) romDirFiles in
  let st := fold_left (patchStep c configDirPath matchFlag)
              (matchRomSets configFiles roms) (mkState fm [] []) in
  PatchDirectory (NewPatcher fm c) configDirPath romDirPath matchFlag now
  = mkRun None (stManager st)
      (stEvents st
       ++ produceLog c (lenZ roms) (lenZ configFiles) romDirPath configDirPath
            (stMatches st) matchFlag now)
      (stMatches st).
Proof.
  intros Hc Hr. unfold PatchDirectory, NewPatcher. cbn [fileManager commit].
  by rewrite Hc, Hr.
Qed.

(** ** The report *)
Section Report.

Lemma sort_insert_elem x y l : x ∈ sort.insert y l <-> x = y \/ x ∈ l.
Proof.
  induction l as [|z l IH]; simpl.
  - rewrite list_elem_of_singleton, elem_of_nil. tauto.
  - destruct (sort.less z y); rewrite !elem_of_cons, ?IH; tauto.
Qed.

(** Sorting keeps the entries. *)
Lemma sortAlphabetical_elem x l : x ∈ sortAlphabetical l <-> x ∈ l.
Proof.
  unfold sortAlphabetical, sort.Strings. induction l as [|y l IH]; simpl; [done |].
  by rewrite sort_insert_elem, IH, elem_of_cons.
Qed.

(** What one match adds to each of the three slices of [produceLog]. *)
Definition romWithoutConfigOf (m : Match) : list gostring :=
  if decide (matchKind m = MatchTypeNone) then
    match configFile m with
    | None => [FileName (deref (rom m))]
    | Some _ => []
    end
  else [].

Definition configWithoutRomOf (m : Match) : list gostring :=
  if decide (matchKind m = MatchTypeNone) then
    match configFile m with
    | Some c => [FileName (ptrRom c)]
    | None => []
    end
  else [].

Definition createdLineOf (k : matchType) (m : Match) : list gostring :=
  if decide (matchKind m = MatchTypeNone) then []
  else if isExisting m then []
  else if bool_decide (strings.ToLower (ConfigName (deref (rom m)))
                       <> strings.ToLower (FileName (deref (configFile m)))) then
    if decide (k = matchKind m) then
      [FileName (deref (rom m)) ++ " -> " ++ ConfigName (deref (rom m))
       ++ " copied from: " ++ FileName (deref (configFile m))]
    else []
  else [].

Lemma tallyStep_eq t m :
  romsWithoutConfig (tallyStep t m) = romsWithoutConfig t ++ romWithoutConfigOf m
  /\ configWithoutRoms (tallyStep t m) = configWithoutRoms t ++ configWithoutRomOf m
  /\ forall k, createdFiles (tallyStep t m) k = createdFiles t k ++ createdLineOf k m.
Proof.
  unfold tallyStep, romWithoutConfigOf, configWithoutRomOf, createdLineOf.
  destruct (decide (matchKind m = MatchTypeNone)).
  - destruct (configFile m); simpl; repeat split; intros; by rewrite ?app_nil_r.
  - destruct (isExisting m); [repeat split; intros; by rewrite ?app_nil_r |].
    destruct (bool_decide _); simpl; [|repeat split; intros; by rewrite ?app_nil_r].
    repeat split; try by rewrite app_nil_r.
    intros k. destruct (decide (k = matchKind m)); [done | by rewrite app_nil_r].
Qed.

(** The three slices after the walk: every match contributes in turn. *)
Lemma tally_fold matches : forall t,
  romsWithoutConfig (fold_left tallyStep matches t)
  = romsWithoutConfig t ++ flat_map romWithoutConfigOf matches
  /\ configWithoutRoms (fold_left tallyStep matches t)
     = configWithoutRoms t ++ flat_map configWithoutRomOf matches
  /\ forall k, createdFiles (fold_left tallyStep matches t) k
               = createdFiles t k ++ flat_map (createdLineOf k) matches.
Proof.
  induction matches as [|m matches IH]; intros t; simpl.
  - rewrite !app_nil_r. repeat split. intros k. by rewrite app_nil_r.
  - destruct (IH (tallyStep t m)) as (-> & -> & Hk).
    destruct (tallyStep_eq t m) as (-> & -> & Hk').
    rewrite <- !app_assoc. repeat split. intros k.
    by rewrite Hk, Hk', <- app_assoc.
Qed.

Lemma tally_eq matches :
  romsWithoutConfig (tally matches) = flat_map romWithoutConfigOf matches
  /\ configWithoutRoms (tally matches) = flat_map configWithoutRomOf matches
  /\ forall k, createdFiles (tally matches) k = flat_map (createdLineOf k) matches.
Proof. unfold tally. destruct (tally_fold matches (mkTally [] [] (fun _ => []))) as (-> & -> & Hk). done. Qed.

(** A section of the report: nothing for an empty list, else the title,
    the sorted entries one per line, and an empty line. *)
Lemma section_eq title items :
  section title items
  = match items with
    | [] => []
    | _ :: _ =>
        title ++ ["010"%char] ++ strings.Join (sortAlphabetical items) ["010"%char]
          ++ ["010"%char; "010"%char]
    end.
Proof.
  unfold section, lenZ. destruct items as [|x l]; [done |].
  destruct (Z.ltb_spec 0 (Z.of_nat (length (x :: l)))) as [_|Hle]; [done |].
  simpl in Hle. lia.
Qed.

(** The text contains the section of the ROMs without a config file. *)
Lemma logText_roms_section c romCount configCount romDirPath configPath matches matchFlag :
  exists pre post,
    logText c romCount configCount romDirPath configPath matches matchFlag
    = pre ++ section "ROMS WITH MISSING CONFIG" (romsWithoutConfig (tally matches)) ++ post.
Proof.
  unfold logText. cbv zeta.
  eexists _, (section _ _ ++ section _ _ ++ section _ _).
  rewrite !app_assoc. reflexivity.
Qed.

(** The text contains the section of the config files without a ROM. *)
Lemma logText_configs_section c romCount configCount romDirPath configPath matches matchFlag :
  exists pre post,
    logText c romCount configCount romDirPath configPath matches matchFlag
    = pre ++ section "CONFIG WITH MISSING ROMS" (configWithoutRoms (tally matches)) ++ post.
Proof.
  unfold logText. cbv zeta.
  eexists _, (section _ _ ++ section _ _ ++ section _ _ ++ section _ _).
  rewrite !app_assoc. reflexivity.
Qed.

End Report.

(** ** Directory entries and their records *)
Section Entries.
Context {M : Type} `{FileMangerInterface M}.
Variables (fm : M) (c : bool) (configDirPath romDirPath : gostring)
  (matchFlag : matchType) (now : Z).

(** The matches of a run, against the matches [matchRomSets] built. *)
Lemma runMatches_listed configDirFiles romDirFiles :
  GetDirectoryContents fm configDirPath = Ok configDirFiles ->
  GetDirectoryContents fm romDirPath = Ok romDirFiles ->
  let run := PatchDirectory (NewPatcher fm c) configDirPath romDirPath matchFlag now in
  Forall2 (fun m m' => configFile m' = configFile m /\ rom m' = rom m
                       /\ matchKind m' = matchKind m
                       /\ (isExisting m = true -> isExisting m' = true)
                       /\ (matchKind m = MatchTypeNone -> m' = m))
    (matchRomSets (newRoms 0 (filterConfigs configDirFiles))
       (newRoms (length (filterConfigs configDirFiles)) romDirFiles))
    (runMatches run)
  /\ runLog run
     = Some (logText c
               (lenZ (newRoms (length (filterConfigs configDirFiles)) romDirFiles))
               (lenZ (newRoms 0 (filterConfigs configDirFiles)))
               romDirPath configDirPath (runMatches run) matchFlag).
Proof.
  intros Hc Hr run. subst run.
  rewrite (PatchDirectory_listed fm c configDirPath romDirPath matchFlag now _ _ Hc Hr).
  cbv zeta. unfold runLog. cbn [runMatches runEvents].
  unfold produceLog, writeLogToFile. rewrite last_snoc.
  split; [|done].
  match goal with
  | |- context [fold_left ?f ?ms ?st] =>
      destruct (patchLoop_matches configDirPath matchFlag c ms st) as (visited & -> & HF)
  end.
  done.
Qed.

End Entries.

(** C9: the entries of the ROM directory are not filtered.  Every entry
    becomes an entity identity that is matched against every config
    identity (a match is recorded wherever a rule fires), and an entry that
    is in no positive match gets a no-match record and is listed in the
    report under "ROMS WITH MISSING CONFIG". *)
Theorem rom_entries_matched_or_reported {M : Type} `{FileMangerInterface M}
    (fm : M) (c : bool) (configDirPath romDirPath : gostring)
    (matchFlag : matchType) (now : Z)
    (configDirFiles romDirFiles : list gostring) (j : nat) (f : gostring) :
  GetDirectoryContents fm configDirPath = Ok configDirFiles ->
  GetDirectoryContents fm romDirPath = Ok romDirFiles ->
  romDirFiles !! j = Some f ->
  let run := PatchDirectory (NewPatcher fm c) configDirPath romDirPath matchFlag now in
  let r := mkPtr (length (filterConfigs configDirFiles) + j) (NewRom f) in
  (forall i g, filterConfigs configDirFiles !! i = Some g ->
     exactRule (NewRom g) (NewRom f) \/ alternateRule (NewRom g) (NewRom f)
     \/ fuzzyRule (NewRom g) (NewRom f) ->
     exists m, m ∈ runMatches run /\ configFile m = Some (mkPtr i (NewRom g))
               /\ rom m = Some r /\ matchKind m <> MatchTypeNone)
  /\ ((forall m, m ∈ runMatches run -> rom m = Some r -> matchKind m = MatchTypeNone) ->
      noMatchForRom r ∈ runMatches run
      /\ exists log pre post,
           runLog run = Some log
           /\ log = pre ++ "ROMS WITH MISSING CONFIG" ++ ["010"%char]
                    ++ strings.Join
                         (sortAlphabetical (romsWithoutConfig (tally (runMatches run))))
                         ["010"%char]
                    ++ ["010"%char; "010"%char] ++ post
           /\ f ∈ sortAlphabetical (romsWithoutConfig (tally (runMatches run)))).
Proof.
  intros Hc Hr Hj run r.
  destruct (runMatches_listed fm c configDirPath romDirPath matchFlag now _ _ Hc Hr)
    as [HF Hlog].
  fold run in HF, Hlog.
  set (cs := newRoms 0 (filterConfigs configDirFiles)) in *.
  set (rs := newRoms (length (filterConfigs configDirFiles)) romDirFiles) in *.
  assert (r ∈ rs) as Hrin by (apply newRoms_elem; by exists j, f).
  split.
  - intros i g Hi Hrule.
    assert (mkPtr i (NewRom g) ∈ cs) as Hcin by (apply newRoms_elem; by exists i, g).
    assert (exists m, m ∈ matchPair [] (mkPtr i (NewRom g)) r
                      /\ matchKind m <> MatchTypeNone) as (m & Hm & Hk).
    { destruct (matchPair_cases (mkPtr i (NewRom g)) r)
        as [[_ ->]|[(_ & _ & ->)|[(_ & _ & _ & ->)|(He & Ha & Hf & _)]]];
        try (eexists; split; [left | done]).
      simpl in He, Ha, Hf. tauto. }
    assert (m ∈ matchRomSets cs rs) as Hin.
    { apply matchRomSets_elem. left. by exists (mkPtr i (NewRom g)), r. }
    destruct (Forall2_elem_l _ _ _ _ HF Hin) as (m' & Hm' & Hcf & Hrm & Hkind & _).
    apply matchPair_elem in Hm as (Hc0 & Hr0 & _).
    exists m'. rewrite Hcf, Hrm, Hkind. done.
  - intros Hnone.
    assert (existsb (positiveFor rom r) (positiveMatches cs rs) = false) as Hex.
    { apply not_true_is_false. intros (m & Hm & Hpos)%existsb_exists.
      unfold positiveMatches in Hm.
      apply in_flat_map in Hm as (c' & Hc' & (r' & Hr' & Hm)%in_flat_map).
      apply list_elem_of_In in Hc', Hr', Hm.
      assert (m ∈ matchRomSets cs rs) as Hin.
      { apply matchRomSets_elem. left. by exists c', r'. }
      apply matchPair_elem in Hm as (_ & Hr0 & Hk & _).
      unfold positiveFor in Hpos. rewrite Hr0 in Hpos. simpl in Hpos.
      apply andb_true_iff in Hpos as [Heq _]. apply ptrEq_true in Heq.
      assert (r' = r) as -> by (by eapply newRoms_same).
      destruct (Forall2_elem_l _ _ _ _ HF Hin) as (m' & Hm' & _ & Hrm & Hkind & _).
      apply Hk. rewrite <- Hkind. apply Hnone; [done | congruence]. }
    assert (noMatchForRom r ∈ matchRomSets cs rs) as Hin.
    { apply matchRomSets_elem. right. left. by exists r. }
    destruct (Forall2_elem_l _ _ _ _ HF Hin) as (m' & Hm' & _ & _ & _ & _ & Hsame).
    rewrite (Hsame eq_refl) in Hm'. split; [done |].
    assert (f ∈ romsWithoutConfig (tally (runMatches run))) as Hf.
    { destruct (tally_eq (runMatches run)) as (-> & _).
      apply list_elem_of_In, in_flat_map. exists (noMatchForRom r).
      split; [by apply list_elem_of_In | by left]. }
    destruct (logText_roms_section c (lenZ rs) (lenZ cs) romDirPath configDirPath
                (runMatches run) matchFlag) as (pre & post & Htext).
    eexists _, pre, post. split; [exact Hlog |]. split.
    + rewrite Htext, section_eq.
      destruct (romsWithoutConfig (tally (runMatches run))) as [|x l] eqn:El;
        [by apply elem_of_nil in Hf |].
      by rewrite <- !app_assoc.
    + by apply sortAlphabetical_elem.
Qed.

Lemma rom_entries_goldeneye :
  let fm := stubWith ["Goldeneye 007 (U) [!].txt" : gostring]
              ["AeroFighters Assault (USA).cfg" : gostring] in
  let run := PatchDirectory (NewPatcher fm true) bezelDirectoryPath romDirectoryPath
               MatchTypeFuzzy 0 in
  noMatchForRom (mkPtr 1 (NewRom "Goldeneye 007 (U) [!].txt")) ∈ runMatches run.
Proof.
  apply (rom_entries_matched_or_reported
           (stubWith ["Goldeneye 007 (U) [!].txt" : gostring]
              ["AeroFighters Assault (USA).cfg" : gostring])
           true bezelDirectoryPath romDirectoryPath MatchTypeFuzzy 0
           ["AeroFighters Assault (USA).cfg" : gostring]
           ["Goldeneye 007 (U) [!].txt" : gostring] 0 "Goldeneye 007 (U) [!].txt").
  - vm_compute. reflexivity.
  - vm_compute. reflexivity.
  - reflexivity.
  - vm_compute. intros m Hm.
    apply list_elem_of_In in Hm. simpl in Hm.
    destruct Hm as [<-|[<-|[]]]; [reflexivity | discriminate].
Defined.

(** The config side of every match of [matchRomSets] is one of the config
    files it was given, the ROM side one of the ROMs. *)
Lemma matchRomSets_sides configFiles romSet m :
  m ∈ matchRomSets configFiles romSet ->
  (forall p, configFile m = Some p -> p ∈ configFiles)
  /\ (forall p, rom m = Some p -> p ∈ romSet).
Proof.
  intros [(c & r & Hc & Hr & Hm)|[(r & Hr & -> & _)|(c & Hc & -> & _)]]%matchRomSets_elem.
  - apply matchPair_elem in Hm as (-> & -> & _). split; by intros p [= <-].
  - simpl. split; [done | by intros p [= <-]].
  - simpl. split; [by intros p [= <-] | done].
Qed.

(** C10: the filter of the config directory compares the extension with
    ".cfg" as it is.  An entry with any other extension, ".CFG" included, is
    no config identity: it is not among the filtered names, no match has it
    as its config file, and it is not listed among the config files without
    a ROM. *)
Theorem other_extensions_ignored {M : Type} `{FileMangerInterface M}
    (fm : M) (c : bool) (configDirPath romDirPath : gostring)
    (matchFlag : matchType) (now : Z)
    (configDirFiles romDirFiles : list gostring) (f : gostring) :
  GetDirectoryContents fm configDirPath = Ok configDirFiles ->
  GetDirectoryContents fm romDirPath = Ok romDirFiles ->
  filepath.Ext f <> (".cfg" : gostring) ->
  let run := PatchDirectory (NewPatcher fm c) configDirPath romDirPath matchFlag now in
  (f ∉ filterConfigs configDirFiles)
  /\ (forall m p, m ∈ runMatches run -> configFile m = Some p -> FileName (ptrRom p) <> f)
  /\ (f ∉ configWithoutRoms (tally (runMatches run))).
Proof.
  intros Hc Hr Hext run.
  destruct (runMatches_listed fm c configDirPath romDirPath matchFlag now _ _ Hc Hr)
    as [HF _].
  fold run in HF.
  assert (f ∉ filterConfigs configDirFiles) as Hnot.
  { intros [_ Hf]%filterConfigs_elem. done. }
  assert (forall m p, m ∈ runMatches run -> configFile m = Some p ->
                      FileName (ptrRom p) <> f) as Hmatches.
  { intros m' p Hm' Hp.
    destruct (Forall2_elem_r _ _ _ _ HF Hm') as (m & Hm & Hcf & _).
    apply matchRomSets_sides in Hm as [Hside _].
    rewrite Hp in Hcf. symmetry in Hcf. apply Hside in Hcf.
    apply newRoms_fileName in Hcf as [Hin _]. intros <-. done. }
  split; [done |]. split; [done |].
  destruct (tally_eq (runMatches run)) as (_ & -> & _).
  intros Hin. apply list_elem_of_In, in_flat_map in Hin as (m & Hm & Hx).
  unfold configWithoutRomOf in Hx.
  destruct (decide (matchKind m = MatchTypeNone)); [|done].
  destruct (configFile m) as [p|] eqn:Hp; [|done].
  destruct Hx as [Hx|[]]. apply list_elem_of_In in Hm.
  by apply (Hmatches m p).
Qed.

Lemma upper_case_cfg_ignored :
  let fm := stubWith ["AeroFighters Assault (USA).n64" : gostring]
              ["AeroFighters Assault (USA).CFG" : gostring] in
  let run := PatchDirectory (NewPatcher fm true) bezelDirectoryPath romDirectoryPath
               MatchTypeFuzzy 0 in
  filepath.Ext "AeroFighters Assault (USA).CFG" = (".CFG" : gostring)
  /\ (("AeroFighters Assault (USA).CFG" : gostring)
        ∉ configWithoutRoms (tally (runMatches run))).
Proof.
  split; [reflexivity |].
  apply (other_extensions_ignored
           (stubWith ["AeroFighters Assault (USA).n64" : gostring]
              ["AeroFighters Assault (USA).CFG" : gostring])
           true bezelDirectoryPath romDirectoryPath MatchTypeFuzzy 0
           ["AeroFighters Assault (USA).CFG" : gostring]
           ["AeroFighters Assault (USA).n64" : gostring]
           "AeroFighters Assault (USA).CFG").
  - vm_compute. reflexivity.
  - vm_compute. reflexivity.
  - vm_compute. discriminate.
Defined.

(** ** Base names of a ROM and of its config name *)
Section TargetNames.

(** The scan of [filepath.Ext]: nothing, or the part from the last dot on. *)
Lemma extScan_cases rpath : forall seen,
  filepath.extScan rpath seen = []
  \/ exists r1 r2, rpath = r1 ++ "."%char :: r2
                   /\ filepath.extScan rpath seen = "."%char :: (rev r1 ++ seen).
Proof.
  induction rpath as [|x rpath IH]; intros seen; simpl; [by left |].
  destruct (filepath.IsPathSeparator x); [by left |].
  destruct (Ascii.eqb_spec x "."%char) as [->|Hx].
  - right. by exists [], rpath.
  - destruct (IH (x :: seen)) as [->|(r1 & r2 & -> & ->)]; [by left | right].
    exists (x :: r1), r2. split; [done |]. simpl. by rewrite <- app_assoc.
Qed.

(** A path is its stem followed by its extension, and the extension is
    empty or begins with a dot. *)
Lemma Ext_split path :
  path = strings.TrimSuffix path (filepath.Ext path) ++ filepath.Ext path
  /\ (filepath.Ext path = [] \/ exists e, filepath.Ext path = "."%char :: e).
Proof.
  unfold filepath.Ext.
  destruct (extScan_cases (rev path) []) as [->|(r1 & r2 & Hrev & ->)].
  - split; [|by left]. unfold strings.TrimSuffix, strings.HasSuffix.
    destruct (strings.HasPrefix (rev path) (rev [])); simpl;
      rewrite ?Nat.sub_0_r, ?firstn_all, app_nil_r; done.
  - split; [|right; by eexists].
    rewrite app_nil_r.
    assert (path = rev r2 ++ "."%char :: rev r1) as Hpath.
    { rewrite <- (rev_involutive path), Hrev, rev_app_distr. simpl.
      by rewrite <- app_assoc. }
    unfold strings.TrimSuffix, strings.HasSuffix.
    assert (strings.HasPrefix (rev path) (rev ("."%char :: rev r1)) = true) as ->.
    { apply HasPrefix_true. exists r2. rewrite Hrev. simpl.
      by rewrite rev_involutive, <- app_assoc. }
    rewrite Hpath at 2 3. rewrite length_app, Nat.add_sub.
    rewrite take_app_length. exact Hpath.
Qed.

Lemma indexOf_char_app a b c :
  strings.indexOf (a ++ b) [c]
  = match strings.indexOf a [c] with
    | Some i => Some i
    | None => (fun i => (length a + i)%nat) <$> strings.indexOf b [c]
    end.
Proof.
  induction a as [|x a IH]; simpl app.
  - by destruct (strings.indexOf b [c]).
  - rewrite !indexOf_char_cons. destruct (Ascii.eqb x c); [done |].
    rewrite IH. destruct (strings.indexOf a [c]); [done |].
    by destruct (strings.indexOf b [c]).
Qed.

(** For a stem that does not begin with a dot, the cut at the first dot of
    the stem followed by any extension is the cut of the stem alone. *)
Lemma cutAtMarker_dot_ext x stem e :
  x <> "."%char ->
  cutAtMarker ((x :: stem) ++ "."%char :: e) ["."%char] = cutAtMarker (x :: stem) ["."%char].
Proof.
  intros Hx. unfold cutAtMarker, strings.Index.
  rewrite indexOf_char_app.
  destruct (strings.indexOf (x :: stem) ["."%char]) as [i|] eqn:Hi.
  - pose proof (indexOf_char_lt _ _ _ Hi) as Hlt.
    assert (i <> 0%nat) as Hi0.
    { intros ->. rewrite indexOf_char_cons in Hi.
      destruct (Ascii.eqb_spec x "."%char); [done |].
      by destruct (strings.indexOf stem ["."%char]). }
    destruct (Z.ltb_spec 0 (Z.of_nat i)); [|lia].
    rewrite Nat2Z.id. by rewrite take_app_le by lia.
  - rewrite indexOf_char_cons, Ascii.eqb_refl. cbn [fmap option_fmap option_map].
    rewrite Nat.add_0_r.
    destruct (Z.ltb_spec 0 (Z.of_nat (length (x :: stem)))) as [_|Hle];
      [|simpl in Hle; lia].
    rewrite Nat2Z.id. apply take_app_length.
Qed.

(** The base name of a file depends on its stem only, when the name does
    not begin with a dot: it is the base name of the stem with ".cfg". *)
Lemma getBaseName_ConfigName x rest :
  x <> "."%char ->
  exists stem,
    strings.TrimSuffix (x :: rest) (filepath.Ext (x :: rest)) = x :: stem
    /\ getBaseName (ConfigName (NewRom (x :: rest))) = getBaseName (x :: rest).
Proof.
  intros Hx. destruct (Ext_split (x :: rest)) as [Hsplit Hext].
  unfold ConfigName, NewRom. cbn [FileName].
  destruct (strings.TrimSuffix (x :: rest) (filepath.Ext (x :: rest))) as [|y stem] eqn:Hstem.
  - exfalso. simpl in Hsplit. destruct Hext as [He|(e & He)]; rewrite He in Hsplit; congruence.
  - assert (y = x) as -> by (simpl in Hsplit; congruence).
    exists stem. split; [done |].
    unfold getBaseName. f_equal. f_equal. unfold markers.
    cbn [fold_left list_ascii_of_string].
    change ((x :: stem) ++ ["."%char; "c"%char; "f"%char; "g"%char])
      with ((x :: stem) ++ "."%char :: ["c"%char; "f"%char; "g"%char]).
    rewrite cutAtMarker_dot_ext by done.
    destruct Hext as [He|(e & He)]; rewrite He in Hsplit; rewrite Hsplit.
    + by rewrite app_nil_r.
    + by rewrite cutAtMarker_dot_ext.
Qed.

End TargetNames.

(** ** Base names and letter case *)
Section LetterCase.

Lemma lowerByte_marker x c :
  c = "."%char \/ c = "["%char \/ c = "("%char ->
  Ascii.eqb (strings.lowerByte x) c = Ascii.eqb x c.
Proof.
  intros [-> | [-> | ->]]; destruct x as [[] [] [] [] [] [] [] []]; reflexivity.
Qed.

Lemma lowerByte_space x : strings.isSpace (strings.lowerByte x) = strings.isSpace x.
Proof. destruct x as [[] [] [] [] [] [] [] []]; reflexivity. Qed.

Lemma indexOf_ToLower s c :
  c = "."%char \/ c = "["%char \/ c = "("%char ->
  strings.indexOf (strings.ToLower s) [c] = strings.indexOf s [c].
Proof.
  intros Hc. induction s as [|x s IH]; [done |].
  unfold strings.ToLower in *. simpl map.
  rewrite !indexOf_char_cons, lowerByte_marker, IH by done. done.
Qed.

Lemma TrimLeftSpace_ToLower s :
  strings.TrimLeftSpace (strings.ToLower s) = strings.ToLower (strings.TrimLeftSpace s).
Proof.
  induction s as [|x s IH]; [done |].
  unfold strings.ToLower in *. simpl. rewrite lowerByte_space.
  by destruct (strings.isSpace x).
Qed.

Lemma TrimSpace_ToLower s :
  strings.TrimSpace (strings.ToLower s) = strings.ToLower (strings.TrimSpace s).
Proof.
  unfold strings.TrimSpace. rewrite TrimLeftSpace_ToLower.
  unfold strings.ToLower at 1. rewrite <- map_rev.
  fold (strings.ToLower (rev (strings.TrimLeftSpace s))).
  rewrite TrimLeftSpace_ToLower. unfold strings.ToLower. by rewrite map_rev.
Qed.

Lemma cutIndex_ToLower s : cutIndex (strings.ToLower s) = cutIndex s.
Proof.
  unfold cutIndex, markers, strings.Index, lenZ.
  cbn [map list_ascii_of_string].
  rewrite !indexOf_ToLower by tauto. by rewrite ToLower_length.
Qed.

(** The base name does not depend on the letter case of the file name. *)
Lemma getBaseName_ToLower s : getBaseName (strings.ToLower s) = getBaseName s.
Proof.
  unfold getBaseName. rewrite !getBaseName_cutIndex.
  rewrite cutIndex_ToLower.
  change (strings.ToLower s) with (map strings.lowerByte s).
  rewrite firstn_map. fold (strings.ToLower (take (Z.to_nat (cutIndex s)) s)).
  by rewrite TrimSpace_ToLower, ToLower_idem.
Qed.

Lemma getBaseName_same_case a b :
  strings.ToLower a = strings.ToLower b -> getBaseName a = getBaseName b.
Proof. intros Hab. by rewrite <- (getBaseName_ToLower a), Hab, getBaseName_ToLower. Qed.

End LetterCase.

(** ** Targets that are already in place *)
Section ExistingTargets.
Context {M : Type} `{CopyOnlyAdds M}.
Variables (configDirPath : gostring) (matchFlag : matchType).

(** A target the file manager reports is never copied to, and stays
    reported. *)
Lemma patchLoop_keeps_target c t matches : forall st,
  FileExists (stManager st) configDirPath t = true ->
  forall dir src,
    EvCopy dir src t ∈ stEvents (fold_left (patchStep c configDirPath matchFlag) matches st) ->
    EvCopy dir src t ∈ stEvents st.
Proof.
  induction matches as [|m matches IH]; intros st Hex dir src; simpl; [done |].
  intros Hin.
  destruct (patchStep_cases configDirPath matchFlag c st m)
    as [[_ Hs]|[(_ & _ & Hs)|(_ & Hno & Hs)]].
  - apply IH in Hin; rewrite Hs in *; done.
  - apply IH in Hin; rewrite Hs in *; done.
  - destruct c.
    + apply IH in Hin; rewrite Hs in *; simpl in *.
      * apply elem_of_app in Hin as [Hin|Hin]; [done |].
        apply list_elem_of_singleton in Hin. unfold copyOf in Hin.
        injection Hin as _ _ Ht. congruence.
      * by apply copy_keeps_files.
    + apply IH in Hin; rewrite Hs in *; done.
Qed.

End ExistingTargets.

(** C8 as stated does not hold: the first config file is named like the
    target of the ROM but for letter case and its match is marked existing,
    yet the second config file matches the same ROM, the in-memory file
    manager does not find the target under its exact name, and the copy to
    that target is requested. *)
Lemma copy_to_target_named_in_other_case :
  let fm := stubWith ["Game (USA).n64" : gostring]
              ["game (usa).cfg" : gostring; "Game (EU).cfg" : gostring] in
  let run := PatchDirectory (NewPatcher fm true) bezelDirectoryPath romDirectoryPath
               MatchTypeExact 0 in
  strings.ToLower "game (usa).cfg"
  = strings.ToLower (ConfigName (NewRom "Game (USA).n64"))
  /\ map isExisting (runMatches run) = [true; false]
  /\ List.filter isCopy (runEvents run)
     = [EvCopy bezelDirectoryPath "Game (EU).cfg" (ConfigName (NewRom "Game (USA).n64"))].
Proof. vm_compute. done. Qed.

(** A ROM whose name begins with a dot is not matched with the config file
    named after it: the base names keep their different extensions. *)
Lemma dot_file_not_matched :
  let fm := stubWith [".hidden.n64" : gostring] [".hidden.cfg" : gostring] in
  let run := PatchDirectory (NewPatcher fm true) bezelDirectoryPath romDirectoryPath
               MatchTypeFuzzy 0 in
  ConfigName (NewRom ".hidden.n64") = (".hidden.cfg" : gostring)
  /\ map matchKind (runMatches run) = [MatchTypeNone; MatchTypeNone].
Proof. vm_compute. done. Qed.

(** C8, amended: for every config file whose name equals, but for letter
    case, the config name computed for a ROM whose own name does not begin
    with a dot, the match of the two is exact and marked existing, and no
    copy from that config file to that target is ever requested; no copy to
    that target is requested from any config file when the file manager
    reports the target at the start of the run. *)
Theorem named_like_target_is_existing {M : Type} `{CopyOnlyAdds M}
    (fm : M) (c : bool) (configDirPath romDirPath : gostring)
    (matchFlag : matchType) (now : Z)
    (configDirFiles romDirFiles : list gostring) (i j : nat)
    (cf : gostring) (x : ascii) (rest : gostring) :
  GetDirectoryContents fm configDirPath = Ok configDirFiles ->
  GetDirectoryContents fm romDirPath = Ok romDirFiles ->
  filterConfigs configDirFiles !! i = Some cf ->
  romDirFiles !! j = Some (x :: rest) ->
  x <> "."%char ->
  strings.ToLower cf = strings.ToLower (ConfigName (NewRom (x :: rest))) ->
  let run := PatchDirectory (NewPatcher fm c) configDirPath romDirPath matchFlag now in
  let target := ConfigName (NewRom (x :: rest)) in
  mkMatch (Some (mkPtr i (NewRom cf)))
    (Some (mkPtr (length (filterConfigs configDirFiles) + j) (NewRom (x :: rest))))
    MatchTypeExact true ∈ runMatches run
  /\ (forall dir, EvCopy dir cf target ∉ runEvents run)
  /\ (FileExists fm configDirPath target = true ->
      forall dir src, EvCopy dir src target ∉ runEvents run).
Proof.
  intros Hc Hr Hi Hj Hx Hsame run target.
  destruct (runMatches_listed fm c configDirPath romDirPath matchFlag now _ _ Hc Hr)
    as [HF _].
  fold run in HF.
  assert (runEvents run
          = stEvents (fold_left (patchStep c configDirPath matchFlag)
                        (matchRomSets (newRoms 0 (filterConfigs configDirFiles))
                           (newRoms (length (filterConfigs configDirFiles)) romDirFiles))
                        (mkState fm [] []))
            ++ produceLog c
                 (lenZ (newRoms (length (filterConfigs configDirFiles)) romDirFiles))
                 (lenZ (newRoms 0 (filterConfigs configDirFiles)))
                 romDirPath configDirPath (runMatches run) matchFlag now) as Hev.
  { subst run.
    by rewrite (PatchDirectory_listed fm c configDirPath romDirPath matchFlag now _ _ Hc Hr). }
  set (cs := newRoms 0 (filterConfigs configDirFiles)) in *.
  set (rs := newRoms (length (filterConfigs configDirFiles)) romDirFiles) in *.
  set (cp := mkPtr i (NewRom cf)).
  set (rp := mkPtr (length (filterConfigs configDirFiles) + j) (NewRom (x :: rest))).
  assert (cp ∈ cs) as Hcin by (apply newRoms_elem; by exists i, cf).
  assert (rp ∈ rs) as Hrin by (apply newRoms_elem; by exists j, (x :: rest)).
  destruct (getBaseName_ConfigName x rest Hx) as (stem & Hstem & Hbase).
  (* every ROM with this target has the base name of the config file *)
  assert (forall c' r', ptrRom c' = NewRom cf -> r' ∈ rs ->
            ConfigName (ptrRom r') = target ->
            matchPair [] c' r' = [mkMatch (Some c') (Some r') MatchTypeExact true])
    as Hexact.
  { intros c' r' Hcf' Hr' Ht.
    apply newRoms_fileName in Hr' as [_ Hnew].
    assert (exists rest', FileName (ptrRom r') = x :: rest') as (rest' & Hname).
    { unfold target, ConfigName, NewRom in Ht. cbn [FileName] in Ht.
      rewrite Hstem in Ht. apply app_inv_tail in Ht.
      destruct (Ext_split (FileName (ptrRom r'))) as [Hsplit _].
      rewrite Ht in Hsplit. simpl in Hsplit. by eexists. }
    destruct (getBaseName_ConfigName x rest' Hx) as (_ & _ & Hbase').
    rewrite <- Hname, <- Hnew in Hbase'.
    assert (Name (ptrRom c') = Name (ptrRom r')) as Hn.
    { rewrite Hnew, Hcf'. simpl. rewrite <- Hbase', Ht.
      apply getBaseName_same_case. exact Hsame. }
    destruct (matchPair_cases c' r') as [[_ ->]|[(He & _)|[(He & _)|(He & _)]]];
      try done.
    rewrite Hcf', Ht. simpl. rewrite bool_decide_eq_true_2; done. }
  split; [|split].
  - assert (mkMatch (Some cp) (Some rp) MatchTypeExact true ∈ matchRomSets cs rs) as Hin.
    { apply matchRomSets_elem. left. exists cp, rp.
      rewrite (Hexact cp rp eq_refl Hrin eq_refl). repeat split; try done. left. }
    destruct (Forall2_elem_l _ _ _ _ HF Hin) as (m' & Hm' & Hcf & Hrm & Hk & Hexi & _).
    destruct m' as [cf' r' k' e']. simpl in *. subst. by rewrite (Hexi eq_refl) in Hm'.
  - intros dir Hin. rewrite Hev in Hin.
    apply elem_of_app in Hin as [Hin|Hin];
      [|unfold produceLog, writeLogToFile in Hin;
        by apply list_elem_of_singleton in Hin].
    apply patchLoop_events in Hin as [Hin|(m & Hm & Hel & Heq)];
      [by apply elem_of_nil in Hin |].
    unfold copyOf, targetOf in Heq. injection Heq as _ Hsrc Htgt.
    pose proof Hm as Hm0.
    apply matchRomSets_elem in Hm as [(c' & r' & Hc' & Hr' & Hm)|[(r' & _ & -> & _)|(c' & _ & -> & _)]];
      [|by rewrite eligible_none in Hel..].
    pose proof Hm as Hm1.
    apply matchPair_elem in Hm as (Hcf & Hrm & _).
    rewrite Hcf in Hsrc. rewrite Hrm in Htgt. simpl in Hsrc, Htgt.
    assert (matchPair [] c' r' = [mkMatch (Some c') (Some r') MatchTypeExact true]) as Hpair.
    { apply Hexact; [|done|done].
      apply newRoms_fileName in Hc' as [_ Hnew]. by rewrite Hnew, Hsrc. }
    rewrite Hpair in Hm1. apply list_elem_of_singleton in Hm1 as ->.
    by rewrite eligible_existing in Hel.
  - intros Hexists dir src Hin. rewrite Hev in Hin.
    apply elem_of_app in Hin as [Hin|Hin];
      [|unfold produceLog, writeLogToFile in Hin;
        by apply list_elem_of_singleton in Hin].
    apply (patchLoop_keeps_target configDirPath matchFlag c target) in Hin; [|done].
    by apply elem_of_nil in Hin.
Qed.

Lemma named_like_target_aerofighters :
  let fm := stubWith ["aerofighters assault (USA).n64" : gostring]
              ["AeroFighters Assault (USA).cfg" : gostring] in
  let run := PatchDirectory (NewPatcher fm true) bezelDirectoryPath romDirectoryPath
               MatchTypeFuzzy 0 in
  strings.ToLower "AeroFighters Assault (USA).cfg"
  = strings.ToLower (ConfigName (NewRom "aerofighters assault (USA).n64"))
  /\ mkMatch (Some (mkPtr 0 (NewRom "AeroFighters Assault (USA).cfg")))
       (Some (mkPtr 1 (NewRom "aerofighters assault (USA).n64")))
       MatchTypeExact true ∈ runMatches run.
Proof.
  split; [reflexivity |].
  apply (named_like_target_is_existing
           (stubWith ["aerofighters assault (USA).n64" : gostring]
              ["AeroFighters Assault (USA).cfg" : gostring])
           true bezelDirectoryPath romDirectoryPath MatchTypeFuzzy 0
           ["AeroFighters Assault (USA).cfg" : gostring]
           ["aerofighters assault (USA).n64" : gostring] 0 0
           "AeroFighters Assault (USA).cfg" "a"%char
           "erofighters assault (USA).n64").
  - vm_compute. reflexivity.
  - vm_compute. reflexivity.
  - reflexivity.
  - reflexivity.
  - discriminate.
  - reflexivity.
Defined.

(** * Further properties of the code *)

(** ** rom.go: [uniqueItems] and [getAlternateNames] *)
Section Unique.

Let step := fun (uniqueSlice : list gostring) (item : gostring) =>
  if negb (containsItem uniqueSlice item) then uniqueSlice ++ [item] else uniqueSlice.

Lemma uniqueLoop_NoDup slice : forall acc, NoDup acc -> NoDup (fold_left step slice acc).
Proof.
  induction slice as [|item slice IH]; intros acc Hacc; simpl; [done |].
  apply IH. unfold step. destruct (containsItem acc item) eqn:Hc; simpl; [done |].
  apply NoDup_app. split; [done |]. split; [|apply NoDup_singleton].
  intros x Hx ->%list_elem_of_singleton.
  apply containsItem_true in Hx. congruence.
Qed.

Lemma uniqueLoop_id slice : forall acc,
  NoDup (acc ++ slice) -> fold_left step slice acc = acc ++ slice.
Proof.
  induction slice as [|item slice IH]; intros acc Hnd; simpl; [by rewrite app_nil_r |].
  assert (containsItem acc item = false) as Hc.
  { apply not_true_is_false. intros Hin%containsItem_true.
    apply NoDup_app in Hnd as (_ & Hdisj & _). apply (Hdisj _ Hin). left. }
  unfold step at 2. rewrite Hc. simpl.
  rewrite IH; rewrite <- app_assoc; done.
Qed.

Lemma uniqueLoop_prefix slice : forall acc,
  exists rest, fold_left step slice acc = acc ++ rest.
Proof.
  induction slice as [|item slice IH]; intros acc; simpl.
  - exists []. by rewrite app_nil_r.
  - unfold step at 2. destruct (negb (containsItem acc item)); [|apply IH].
    destruct (IH (acc ++ [item])) as [rest ->]. exists (item :: rest).
    by rewrite <- app_assoc.
Qed.

Lemma uniqueItems_NoDup slice : NoDup (uniqueItems slice).
Proof. apply (uniqueLoop_NoDup slice []), NoDup_nil_2. Qed.

Lemma uniqueItems_cons x slice : exists rest, uniqueItems (x :: slice) = x :: rest.
Proof. unfold uniqueItems. simpl. apply (uniqueLoop_prefix slice [x]). Qed.

Lemma uniqueItems_id slice : NoDup slice -> uniqueItems slice = slice.
Proof. intros Hnd. apply (uniqueLoop_id slice []). done. Qed.

End Unique.

(** X1: [uniqueItems] returns a slice without duplicates that has exactly
    the members of its argument; a slice that has no duplicates comes back
    unchanged, so that applying [uniqueItems] twice is applying it once. *)
Theorem uniqueItems_spec (slice : list gostring) :
  NoDup (uniqueItems slice)
  /\ (forall x, x ∈ uniqueItems slice <-> x ∈ slice)
  /\ uniqueItems (uniqueItems slice) = uniqueItems slice.
Proof.
  split; [apply uniqueItems_NoDup |]. split; [intros x; apply uniqueItems_elem |].
  apply uniqueItems_id, uniqueItems_NoDup.
Qed.

(** X2: the alternate names come without duplicates, and the first of
    them is the lower-cased name itself. *)
Theorem getAlternateNames_first (name : gostring) (recursive : bool) :
  NoDup (getAlternateNames name recursive)
  /\ head (getAlternateNames name recursive) = Some (strings.ToLower name).
Proof.
  unfold getAlternateNames. rewrite getAlternateNamesAt_unfold. cbv zeta.
  split; [apply uniqueItems_NoDup |].
  match goal with
  | |- head (uniqueItems ([?x] ++ ?l)) = _ =>
      destruct (uniqueItems_cons x l) as [rest Hrest]
  end.
  simpl app in *. by rewrite Hrest.
Qed.

Lemma getAlternateNamesAt_flat depth name :
  getAlternateNamesAt depth name false = getAlternateNamesAt 0 name false.
Proof. by rewrite !getAlternateNamesAt_unfold. Qed.

(** X3: the nested call of [getAlternateNames] passes [recursive = false]
    and calls no further, so the nesting is one level deep: any larger bound
    on the depth gives the result of [getAlternateNames]. *)
Theorem getAlternateNames_depth (depth : nat) (name : gostring) (recursive : bool) :
  getAlternateNamesAt (S depth) name recursive = getAlternateNames name recursive.
Proof.
  unfold getAlternateNames. rewrite !getAlternateNamesAt_unfold. cbv zeta.
  by rewrite (getAlternateNamesAt_flat depth).
Qed.

Lemma getAlternateNamesAt_ToLower depth name recursive :
  getAlternateNamesAt depth (strings.ToLower name) recursive
  = getAlternateNamesAt depth name recursive.
Proof. by rewrite !getAlternateNamesAt_unfold, ToLower_idem. Qed.

(** X4: the identity of a file does not depend on the letter case of its
    name: the lower-cased file name gets the same base name and the same
    alternate names. *)
Theorem NewRom_ignores_case (fileName : gostring) :
  Name (NewRom (strings.ToLower fileName)) = Name (NewRom fileName)
  /\ AlternateNames (NewRom (strings.ToLower fileName)) = AlternateNames (NewRom fileName).
Proof.
  unfold NewRom. cbn [Name AlternateNames]. by rewrite getBaseName_ToLower.
Qed.

(** ** rom.go: [getBaseName] and [ConfigName] *)
Section Trim.

Lemma TrimLeftSpace_suffix s : exists k, s = k ++ strings.TrimLeftSpace s.
Proof.
  induction s as [|x s [k IH]]; [by exists [] |].
  simpl. destruct (strings.isSpace x); [|by exists []].
  exists (x :: k). simpl. by rewrite <- IH.
Qed.

Lemma TrimLeftSpace_head x s :
  strings.isSpace x = false -> strings.TrimLeftSpace (x :: s) = x :: s.
Proof. intros Hx. simpl. by rewrite Hx. Qed.

Lemma TrimLeftSpace_head_inv s :
  match strings.TrimLeftSpace s with
  | x :: _ => strings.isSpace x = false
  | [] => True
  end.
Proof.
  induction s as [|x s IH]; [done |]. simpl.
  by destruct (strings.isSpace x) eqn:Hx.
Qed.

(** What [TrimSpace] returns is a part of the string: something before it,
    something after it. *)
Lemma TrimSpace_infix s : exists k l, s = k ++ strings.TrimSpace s ++ l.
Proof.
  unfold strings.TrimSpace.
  destruct (TrimLeftSpace_suffix s) as [k Hk].
  destruct (TrimLeftSpace_suffix (rev (strings.TrimLeftSpace s))) as [l Hl].
  exists k, (rev l). rewrite <- rev_app_distr, <- Hl, rev_involutive. exact Hk.
Qed.

(** A string that begins with a byte that is no white space keeps its first
    byte. *)
Lemma TrimSpace_head x s :
  strings.isSpace x = false -> exists t, strings.TrimSpace (x :: s) = x :: t.
Proof.
  intros Hx. unfold strings.TrimSpace. rewrite TrimLeftSpace_head by done.
  destruct (TrimLeftSpace_suffix (rev (x :: s))) as [l Hl].
  pose proof (TrimLeftSpace_head_inv (rev (x :: s))) as Hh.
  destruct (strings.TrimLeftSpace (rev (x :: s))) as [|y t] eqn:Et.
  - exfalso. rewrite app_nil_r in Hl. simpl in Hl.
    assert (strings.TrimLeftSpace (rev s ++ [x]) = []) as Hnil by done.
    clear -Hnil Hx. induction (rev s) as [|z r IH]; simpl in Hnil.
    + by rewrite Hx in Hnil.
    + destruct (strings.isSpace z); [by apply IH | done].
  - assert (x :: s = rev (y :: t) ++ rev l) as Heq.
    { by rewrite <- rev_app_distr, <- Hl, rev_involutive. }
    destruct (rev (y :: t)) as [|z u] eqn:Er.
    + apply (f_equal (@length ascii)) in Er. rewrite length_rev in Er. done.
    + simpl in Heq. injection Heq as -> _. by eexists.
Qed.

Lemma TrimLeftSpace_fix u :
  match u with x :: _ => strings.isSpace x = false | [] => True end ->
  strings.TrimLeftSpace u = u.
Proof. destruct u as [|x u]; [done |]. apply TrimLeftSpace_head. Qed.

(** What [TrimSpace] returns neither begins nor ends with white space. *)
Lemma TrimSpace_clean s :
  match strings.TrimSpace s with x :: _ => strings.isSpace x = false | [] => True end
  /\ match rev (strings.TrimSpace s) with
     | x :: _ => strings.isSpace x = false
     | [] => True
     end.
Proof.
  split.
  - pose proof (TrimLeftSpace_head_inv s) as Ht.
    unfold strings.TrimSpace.
    destruct (strings.TrimLeftSpace s) as [|x t] eqn:Et; [done |].
    destruct (TrimSpace_head x t Ht) as [u Hu].
    unfold strings.TrimSpace in Hu. rewrite TrimLeftSpace_head in Hu by done.
    by rewrite Hu.
  - unfold strings.TrimSpace. rewrite rev_involutive.
    apply TrimLeftSpace_head_inv.
Qed.

Lemma TrimSpace_fix u :
  match u with x :: _ => strings.isSpace x = false | [] => True end ->
  match rev u with x :: _ => strings.isSpace x = false | [] => True end ->
  strings.TrimSpace u = u.
Proof.
  intros Hh Hl. unfold strings.TrimSpace.
  by rewrite (TrimLeftSpace_fix u), (TrimLeftSpace_fix (rev u)), rev_involutive.
Qed.

Lemma TrimSpace_idem s : strings.TrimSpace (strings.TrimSpace s) = strings.TrimSpace s.
Proof. destruct (TrimSpace_clean s). by apply TrimSpace_fix. Qed.

End Trim.
